(** * The rate-controlled dispatch engine of [lib/burn.go]

    A shallow embedding of [GenBurner], [Burn], [Stop], [burn] and [hit].
    Sequential code is embedded as functions; the goroutines started by
    [Burn] (one scheduler, the workers, the caller that drains the result
    stream and may call [Stop]) are embedded as one labelled transition
    system whose step function [exec1] is executable. *)

From Stdlib Require Import ZArith Lia Bool.
From Stdlib Require Import Floats.SpecFloat.
From stdpp Require Import base list strings.

Local Open Scope Z_scope.

(** ** Machine integers *)

(** [uint64] arithmetic wraps modulo [2^64]. *)
Definition wrap64 (z : Z) : Z := z mod 2 ^ 64.

(** The conversion [time.Duration(x)] of a [uint64] to the signed 64-bit
    [Duration] keeps the bits. *)
Definition int64_of_uint64 (x : Z) : Z :=
  if x <? 2 ^ 63 then x else x - 2 ^ 64.

Definition maxDuration : Z := 2 ^ 63 - 1.
Definition minDuration : Z := - 2 ^ 63.

(** ** Instants and durations of package [time]

    An instant is a reading of the monotonic clock in nanoseconds; a
    [Duration] is a signed 64-bit count of nanoseconds. *)
Module Time.

(** [t.Add(d)] *)
Definition Add (t d : Z) : Z := t + d.

(** [t.Sub(u)]: the difference, saturated to the range of [Duration]. *)
Definition Sub (t u : Z) : Z :=
  if maxDuration <? t - u then maxDuration
  else if t - u <? minDuration then minDuration
  else t - u.

(** [t.After(u)] *)
Definition After (t u : Z) : bool := u <? t.

(** [time.Since(t)] read when the clock shows [clock]. *)
Definition Since (clock t : Z) : Z := Sub clock t.

(** [time.Sleep(d)] called when the clock shows [clock] returns no
    earlier than this instant; a negative or zero [d] returns at once. *)
Definition wake_time (clock d : Z) : Z := clock + Z.max 0 d.

End Time.

(** Modelled from the spec: the helper [max] on instants, used by [Burn] at
    line 93 and declared elsewhere in the package; the spec timestamps a
    tick "as max(intended, now)", the later of the two instants. *)
Definition max (a b : Z) : Z := if Time.After a b then a else b.

(** ** [Duration.Seconds] and the conversion to [uint64]

    [du.Seconds()] is computed in binary64:
    [float64(d / Second) + float64(d % Second) / 1e9]. *)
Module F64.

Definition prec : Z := 53.
Definition emax : Z := 1024.

(** [float64(n)] for an integer [n], rounded to nearest even. *)
Definition of_int (n : Z) : spec_float := binary_normalize prec emax n 0 false.

Definition add : spec_float -> spec_float -> spec_float := SFadd prec emax.
Definition div : spec_float -> spec_float -> spec_float := SFdiv prec emax.

(** The integer part of a finite float, the fraction discarded. *)
Definition trunc (f : spec_float) : option Z :=
  match f with
  | S754_zero _ => Some 0
  | S754_finite s m e => Some (cond_Zopp s (Z.shiftl (Z.pos m) e))
  | S754_infinity _ | S754_nan => None
  end.

(** [uint64(f)]. Go leaves the result to the implementation when the
    truncated value is not a [uint64]; [other] is what the platform
    returns then. *)
Definition to_uint64 (other : Z) (f : spec_float) : Z :=
  match trunc f with
  | Some t => if (0 <=? t) && (t <? 2 ^ 64) then t else wrap64 other
  | None => wrap64 other
  end.

End F64.

Definition Second : Z := 1000000000.

(** [d.Seconds()] for a [Duration] [d]; [/] and [%] truncate toward zero. *)
Definition Seconds (d : Z) : spec_float :=
  let sec := Z.quot d Second in
  let nsec := Z.rem d Second in
  F64.add (F64.of_int sec) (F64.div (F64.of_int nsec) (F64.of_int 1000000000)).

(** ** Channels, outcomes, the data of the package *)

(** A channel that carries no buffered value: the [nil] channel (the zero
    value of a channel field), an open channel, a closed one. *)
Inductive chan := ChNil | ChOpen | ChClosed.

#[export] Instance chan_eq_dec : EqDecision chan.
Proof. solve_decision. Defined.

(** A call returns or panics. *)
Inductive outcome (A : Type) :=
| Ret (a : A)
| Panic (msg : string).
Arguments Ret {A} a.
Arguments Panic {A} msg.

(** A receive from a channel on which nobody sends can proceed only once
    the channel is closed; on the [nil] channel it never can. *)
Definition recv_ready (c : chan) : bool :=
  match c with ChClosed => true | _ => false end.

(** [close(c)] *)
Definition close (c : chan) : outcome chan :=
  match c with
  | ChNil => Panic "close of nil channel"
  | ChOpen => Ret ChClosed
  | ChClosed => Panic "close of closed channel"
  end.

(** [GTargeter]: the fields the engine reads. *)
Record GTargeter := {
  Target : string;
  IsEtcd : bool;
  MethodName : string
}.

(** [Burner]: [Conn] and [Ctx] are opaque handles. *)
Record Burner := {
  Workers : Z;
  stopch : chan
}.

(** Modelled from the spec: the type [Result], declared elsewhere in the
    package; [hit] writes its fields [Timestamp], [Latency] and [Error],
    the spec's {timestamp, latency, error}, an empty [Error] meaning none. *)
Record Result := {
  Timestamp : Z;
  Latency : Z;
  Error : string
}.

#[export] Instance Result_eq_dec : EqDecision Result.
Proof. solve_decision. Defined.

(** [GenBurner]. [dial] and [check] are the errors, if any, of [grpc.Dial]
    and of the health check; [ncpu] is [runtime.NumCPU()]. The composite
    literal sets [Conn], [Workers] and [Ctx]; [stopch] keeps its zero value. *)
Definition GenBurner (t : GTargeter) (dial check : option string) (ncpu : Z)
  : Burner + string :=
  if IsEtcd t then inr "Etcd is not supported yet"
  else match dial with
       | Some e => inr e
       | None =>
           match check with
           | Some _ => inr "Not Healthy"
           | None => inl {| Workers := wrap64 ncpu; stopch := ChNil |}
           end
       end.

(** [Stop]: the [select] takes the receive when it can proceed and the
    [default] otherwise. *)
Definition Stop (b : Burner) : outcome Burner :=
  if recv_ready (stopch b) then Ret b
  else match close (stopch b) with
       | Ret c => Ret {| Workers := Workers b; stopch := c |}
       | Panic m => Panic m
       end.

(** [n] calls of [Stop] in a row; a panic ends the sequence. *)
Fixpoint Stop_n (n : nat) (b : Burner) : outcome Burner :=
  match n with
  | O => Ret b
  | S k => match Stop b with
           | Ret b' => Stop_n k b'
           | Panic m => Panic m
           end
  end.

(** [hit]. [invoke] is the error, if any, that [Conn.Invoke] returns and
    [completion] the clock when the deferred function runs. The [err] of
    the [if] statement shadows the outer [err], which stays [nil], so the
    deferred function only sets [Latency]. *)
Definition hit (tm : Z) (invoke : option string) (completion : Z) : Result :=
  let res := {| Timestamp := tm; Latency := 0; Error := "" |} in
  let err : option string := None in
  let res := match invoke with
             | Some e => {| Timestamp := Timestamp res; Latency := Latency res; Error := e |}
             | None => res
             end in
  let res := {| Timestamp := Timestamp res;
                Latency := Time.Since completion tm;
                Error := Error res |} in
  match err with
  | Some e => {| Timestamp := Timestamp res; Latency := Latency res; Error := e |}
  | None => res
  end.

(** ** The run started by [Burn]

    [Burn] makes the two unbuffered channels, starts [b.Workers] workers and
    the scheduler goroutine, and returns [results]. The state below is the
    program at that point and after any interleaving of its goroutines. *)

(** Why the scheduler left its loop: the hit count was reached (line 95),
    the stop signal was received (line 98), or [1e9 / rate] divided by zero
    (line 86). The deferred calls run in all three cases. *)
Inductive exit := ByHits | ByStop | ByPanic.

#[export] Instance exit_eq_dec : EqDecision exit.
Proof. solve_decision. Defined.

(** Where the scheduler goroutine stands. *)
Inductive pc :=
| PInit                           (* line 86, nothing computed yet *)
| PTop                            (* line 90, before [time.Now()] *)
| PSleep (now next : Z)           (* line 91, before [time.Sleep] *)
| PSleeping (wake tick : Z)       (* inside [time.Sleep] *)
| PSelect (tick : Z)              (* line 92, at the [select] *)
| PCloseTicks (e : exit)          (* deferred [close(ticks)] *)
| PWait (e : exit)                (* deferred [workers.Wait()] *)
| PCloseResults (e : exit)        (* deferred [close(results)] *)
| PEnd (e : exit).                (* the goroutine is over *)

#[export] Instance pc_eq_dec : EqDecision pc.
Proof. solve_decision. Defined.

(** Where a worker ([burn]) stands. *)
Inductive wstate :=
| WLoop                (* at the head of [range ticks], not yet blocked *)
| WIdle                (* blocked in the receive from [ticks] *)
| WBusy (tm : Z)       (* inside [hit] for the tick [tm] *)
| WSend (r : Result)   (* blocked in the send of [r] to [results] *)
| WExit.               (* returned; the deferred [workers.Done()] has run *)

#[export] Instance wstate_eq_dec : EqDecision wstate.
Proof. solve_decision. Defined.

Record state := {
  clock : Z;                 (* the monotonic clock *)
  crashed : bool;            (* an unrecovered panic ended the process *)
  sched : pc;
  burner : Burner;           (* the receiver [b] *)
  rate : Z;                  (* the argument [rate] *)
  secs : Z;                  (* [uint64(du.Seconds())] *)
  interval : Z;
  hits : Z;
  began : Z;
  done : Z;
  ticks : chan;
  results : chan;
  pool : list wstate;        (* every worker started so far *)
  wg : Z;                    (* the counter of the WaitGroup [workers] *)
  emitted : list Z;          (* the ticks handed off, in emission order *)
  received : list Result     (* the Results the caller has received *)
}.

(** The events of a run; each carries what the environment chooses. *)
Inductive label :=
| LAdvance (c : Z)                      (* the clock moves to [c] *)
| LInit                                 (* lines 86 to 88 *)
| LNow                                  (* line 90 *)
| LSleep                                (* line 91: the call *)
| LWake                                 (* line 91: the return *)
| LHandoff (i : nat)                    (* line 93: worker [i] receives *)
| LStopSeen                             (* line 97 *)
| LSpawn                                (* lines 99 to 101 *)
| LCloseTicks
| LWaitDone
| LCloseResults
| LPark (i : nat)                       (* worker [i] blocks in the receive *)
| LInvoke (i : nat) (err : option string) (* [hit] of worker [i] completes *)
| LDeliver (i : nat)                    (* the caller receives from worker [i] *)
| LWorkerExit (i : nat)                 (* worker [i] sees [ticks] closed *)
| LStop.                                (* the caller calls [Stop] *)

#[export] Instance label_eq_dec : EqDecision label.
Proof. solve_decision. Defined.

Definition set_clock (c : Z) (s : state) : state :=
  {| clock := c; crashed := crashed s; sched := sched s; burner := burner s;
     rate := rate s; secs := secs s; interval := interval s; hits := hits s;
     began := began s; done := done s; ticks := ticks s; results := results s;
     pool := pool s; wg := wg s; emitted := emitted s; received := received s |}.

Definition set_crashed (s : state) : state :=
  {| clock := clock s; crashed := true; sched := sched s; burner := burner s;
     rate := rate s; secs := secs s; interval := interval s; hits := hits s;
     began := began s; done := done s; ticks := ticks s; results := results s;
     pool := pool s; wg := wg s; emitted := emitted s; received := received s |}.

Definition set_sched (p : pc) (s : state) : state :=
  {| clock := clock s; crashed := crashed s; sched := p; burner := burner s;
     rate := rate s; secs := secs s; interval := interval s; hits := hits s;
     began := began s; done := done s; ticks := ticks s; results := results s;
     pool := pool s; wg := wg s; emitted := emitted s; received := received s |}.

Definition set_burner (b : Burner) (s : state) : state :=
  {| clock := clock s; crashed := crashed s; sched := sched s; burner := b;
     rate := rate s; secs := secs s; interval := interval s; hits := hits s;
     began := began s; done := done s; ticks := ticks s; results := results s;
     pool := pool s; wg := wg s; emitted := emitted s; received := received s |}.

(** The locals that lines 86 to 88 initialise. *)
Definition set_locals (i h b d : Z) (s : state) : state :=
  {| clock := clock s; crashed := crashed s; sched := sched s; burner := burner s;
     rate := rate s; secs := secs s; interval := i; hits := h;
     began := b; done := d; ticks := ticks s; results := results s;
     pool := pool s; wg := wg s; emitted := emitted s; received := received s |}.

Definition set_ticks (c : chan) (s : state) : state :=
  {| clock := clock s; crashed := crashed s; sched := sched s; burner := burner s;
     rate := rate s; secs := secs s; interval := interval s; hits := hits s;
     began := began s; done := done s; ticks := c; results := results s;
     pool := pool s; wg := wg s; emitted := emitted s; received := received s |}.

Definition set_results (c : chan) (s : state) : state :=
  {| clock := clock s; crashed := crashed s; sched := sched s; burner := burner s;
     rate := rate s; secs := secs s; interval := interval s; hits := hits s;
     began := began s; done := done s; ticks := ticks s; results := c;
     pool := pool s; wg := wg s; emitted := emitted s; received := received s |}.

Definition set_pool (ws : list wstate) (s : state) : state :=
  {| clock := clock s; crashed := crashed s; sched := sched s; burner := burner s;
     rate := rate s; secs := secs s; interval := interval s; hits := hits s;
     began := began s; done := done s; ticks := ticks s; results := results s;
     pool := ws; wg := wg s; emitted := emitted s; received := received s |}.

Definition set_wg (n : Z) (s : state) : state :=
  {| clock := clock s; crashed := crashed s; sched := sched s; burner := burner s;
     rate := rate s; secs := secs s; interval := interval s; hits := hits s;
     began := began s; done := done s; ticks := ticks s; results := results s;
     pool := pool s; wg := n; emitted := emitted s; received := received s |}.

Definition set_emitted (l : list Z) (s : state) : state :=
  {| clock := clock s; crashed := crashed s; sched := sched s; burner := burner s;
     rate := rate s; secs := secs s; interval := interval s; hits := hits s;
     began := began s; done := done s; ticks := ticks s; results := results s;
     pool := pool s; wg := wg s; emitted := l; received := received s |}.

Definition set_received (l : list Result) (s : state) : state :=
  {| clock := clock s; crashed := crashed s; sched := sched s; burner := burner s;
     rate := rate s; secs := secs s; interval := interval s; hits := hits s;
     began := began s; done := done s; ticks := ticks s; results := results s;
     pool := pool s; wg := wg s; emitted := emitted s; received := l |}.

(** Is some worker blocked in the receive from [ticks]? *)
Definition some_idle (ws : list wstate) : bool :=
  existsb (fun w => bool_decide (w = WIdle)) ws.

(** The intended instant of the tick numbered [done]:
    [began.Add(time.Duration(done*interval))]. *)
Definition next_instant (began done interval : Z) : Z :=
  Time.Add began (int64_of_uint64 (wrap64 (done * interval))).

(** [workers.Done()]: the counter goes down; below zero it panics. *)
Definition wg_done (s : state) : state :=
  if wg s - 1 <? 0 then set_crashed s else set_wg (wg s - 1) s.

(** One event. [None]: the event cannot happen in this state. *)
Definition exec1 (s : state) (l : label) : option state :=
  if crashed s then None else
  match l with
  | LAdvance c =>
      if clock s <=? c then Some (set_clock c s) else None
  | LInit =>
      match sched s with
      | PInit =>
          if rate s =? 0 then Some (set_sched (PCloseTicks ByPanic) s)
          else Some (set_sched PTop
                       (set_locals (1000000000 / rate s)
                                   (wrap64 (rate s * secs s))
                                   (clock s) 0 s))
      | _ => None
      end
  | LNow =>
      match sched s with
      | PTop => Some (set_sched (PSleep (clock s)
                                   (next_instant (began s) (done s) (interval s))) s)
      | _ => None
      end
  | LSleep =>
      match sched s with
      | PSleep now next =>
          Some (set_sched (PSleeping (Time.wake_time (clock s) (Time.Sub next now))
                                     (max next now)) s)
      | _ => None
      end
  | LWake =>
      match sched s with
      | PSleeping wake tick =>
          if wake <=? clock s then Some (set_sched (PSelect tick) s) else None
      | _ => None
      end
  | LHandoff i =>
      match sched s, pool s !! i with
      | PSelect tick, Some WIdle =>
          let d := wrap64 (done s + 1) in
          Some (set_sched (if d =? hits s then PCloseTicks ByHits else PTop)
                  (set_locals (interval s) (hits s) (began s) d
                     (set_emitted (emitted s ++ [tick])
                        (set_pool (<[i := WBusy tick]> (pool s)) s))))
      | _, _ => None
      end
  | LStopSeen =>
      match sched s with
      | PSelect _ =>
          if recv_ready (stopch (burner s))
          then Some (set_sched (PCloseTicks ByStop) s) else None
      | _ => None
      end
  | LSpawn =>
      match sched s with
      | PSelect _ =>
          if some_idle (pool s) || recv_ready (stopch (burner s)) then None
          else Some (set_sched PTop
                       (set_pool (pool s ++ [WLoop]) (set_wg (wg s + 1) s)))
      | _ => None
      end
  | LCloseTicks =>
      match sched s with
      | PCloseTicks e =>
          match close (ticks s) with
          | Ret c => Some (set_sched (PWait e) (set_ticks c s))
          | Panic _ => Some (set_crashed s)
          end
      | _ => None
      end
  | LWaitDone =>
      match sched s with
      | PWait e => if wg s =? 0 then Some (set_sched (PCloseResults e) s) else None
      | _ => None
      end
  | LCloseResults =>
      match sched s with
      | PCloseResults e =>
          match close (results s) with
          | Ret c =>
              let s' := set_sched (PEnd e) (set_results c s) in
              Some (if bool_decide (e = ByPanic) then set_crashed s' else s')
          | Panic _ => Some (set_crashed s)
          end
      | _ => None
      end
  | LPark i =>
      match pool s !! i with
      | Some WLoop =>
          if recv_ready (ticks s) then None
          else Some (set_pool (<[i := WIdle]> (pool s)) s)
      | _ => None
      end
  | LInvoke i err =>
      match pool s !! i with
      | Some (WBusy tm) =>
          Some (set_pool (<[i := WSend (hit tm err (clock s))]> (pool s)) s)
      | _ => None
      end
  | LDeliver i =>
      match pool s !! i with
      | Some (WSend r) =>
          if recv_ready (results s) then Some (set_crashed s)
          else Some (set_received (received s ++ [r])
                       (set_pool (<[i := WLoop]> (pool s)) s))
      | _ => None
      end
  | LWorkerExit i =>
      match pool s !! i with
      | Some WLoop | Some WIdle =>
          if recv_ready (ticks s)
          then Some (wg_done (set_pool (<[i := WExit]> (pool s)) s))
          else None
      | _ => None
      end
  | LStop =>
      match Stop (burner s) with
      | Ret b => Some (set_burner b s)
      | Panic _ => Some (set_crashed s)
      end
  end.

(** A run: the events in order. *)
Fixpoint exec (s : state) (ls : list label) : option state :=
  match ls with
  | [] => Some s
  | l :: ls' => match exec1 s l with
                | Some s' => exec s' ls'
                | None => None
                end
  end.

Definition step (s : state) (l : label) (s' : state) : Prop := exec1 s l = Some s'.
Definition steps (s : state) (ls : list label) (s' : state) : Prop := exec s ls = Some s'.

(** [rate * uint64(du.Seconds())] needs [uint64(du.Seconds())];
    [other] is the platform's answer where Go leaves the conversion open. *)
Definition uint64_Seconds (other : Z) (du : Z) : Z :=
  F64.to_uint64 other (Seconds du).

(** The state when [Burn(tgt, rate, du)] returns, read at the instant [t0]:
    both channels made, [b.Workers] workers started and counted, the
    scheduler goroutine started. *)
Definition Burn (other : Z) (b : Burner) (rate du : Z) (t0 : Z) : state :=
  {| clock := t0; crashed := false; sched := PInit; burner := b;
     rate := rate; secs := uint64_Seconds other du;
     interval := 0; hits := 0; began := 0; done := 0;
     ticks := ChOpen; results := ChOpen;
     pool := replicate (Z.to_nat (Workers b)) WLoop;
     wg := Workers b;
     emitted := []; received := [] |}.

(** ** A schedule that lets a run finish

    One worker (number 0) takes every tick; each round is one pass of the
    scheduler loop followed by the worker's [hit] and the caller's receive. *)

(** One round from a state at line 90; [err] is what [Invoke] returns. *)
Definition round (err : option string) (s : state) : list label :=
  let next := next_instant (began s) (done s) (interval s) in
  [LNow; LSleep;
   LAdvance (Time.wake_time (clock s) (Time.Sub next (clock s)));
   LWake; LHandoff 0; LInvoke 0 err; LDeliver 0; LPark 0].

Fixpoint rounds (err : option string) (n : nat) (s : state) : list label :=
  match n with
  | O => []
  | S k => match exec s (round err s) with
           | Some s' => round err s ++ rounds err k s'
           | None => []
           end
  end.

(** Up to the first round: the locals are set, worker 0 waits for a tick
    (started by the [default] branch when [b.Workers] is 0). *)
Definition startup (s : state) : list label :=
  LInit :: match pool s with
           | [] => [LNow; LSleep; LWake; LSpawn; LPark 0]
           | _ :: _ => [LPark 0]
           end.

(** The deferred calls, every worker leaving in between. *)
Definition shutdown (s : state) : list label :=
  LCloseTicks :: map LWorkerExit (seq 0 (length (pool s))) ++ [LWaitDone; LCloseResults].

(** The whole run of [n] ticks. *)
Definition full_run (err : option string) (n : nat) (s : state) : list label :=
  let l1 := startup s in
  match exec s l1 with
  | Some s1 =>
      let l2 := rounds err n s1 in
      match exec s1 l2 with
      | Some s2 => l1 ++ l2 ++ shutdown s2
      | None => l1
      end
  | None => []
  end.

(** ** What the spec says, in its own words *)

(** The spec's hit count [floor(R*D)], [D] in seconds ([du] nanoseconds). *)
Definition spec_total_hits (R du : Z) : Z := (R * du) / Second.

(** The spec's [n]-th intended instant [began + n * (1/R)] seconds, as an
    equation between integers: [R] times the offset in nanoseconds is
    [n] times a second. *)
Definition spec_intended (R began n t : Z) : Prop :=
  R * (t - began) = n * Second.

(** ** Properties of states *)

(** The workers that have not returned. *)
Definition alive (ws : list wstate) : nat :=
  length (filter (fun w => w <> WExit) ws).

(** The tick a worker has taken and not yet answered at the caller. *)
Definition tick_of (w : wstate) : list Z :=
  match w with
  | WBusy tm => [tm]
  | WSend r => [Timestamp r]
  | _ => []
  end.

Definition inflight (ws : list wstate) : list Z := flat_map tick_of ws.

(** The Result a worker holds, not yet received. *)
Definition result_of (w : wstate) : list Result :=
  match w with WSend r => [r] | _ => [] end.

Definition pending (ws : list wstate) : list Result := flat_map result_of ws.

Definition running (p : pc) : bool :=
  match p with
  | PTop | PSleep _ _ | PSleeping _ _ | PSelect _ => true
  | _ => false
  end.

(** [close(ticks)] has run. *)
Definition ticks_closed_at (p : pc) : bool :=
  match p with
  | PWait _ | PCloseResults _ | PEnd _ => true
  | _ => false
  end.

(** [workers.Wait()] has returned. *)
Definition waited_at (p : pc) : bool :=
  match p with
  | PCloseResults _ | PEnd _ => true
  | _ => false
  end.

(** [close(results)] has run. *)
Definition results_closed_at (p : pc) : bool :=
  match p with
  | PEnd _ => true
  | _ => false
  end.

(** The reason recorded once the scheduler has left its loop. *)
Definition exit_of (p : pc) : option exit :=
  match p with
  | PCloseTicks e | PWait e | PCloseResults e | PEnd e => Some e
  | _ => None
  end.

Definition nondecreasing (l : list Z) : Prop :=
  forall i j x y, (i <= j)%nat -> l !! i = Some x -> l !! j = Some y -> x <= y.

(** A Result made by [hit] for the tick it carries, at an instant between
    that tick and [now]. *)
Definition made_by_hit (now : Z) (r : Result) : Prop :=
  exists err c, r = hit (Timestamp r) err c /\ Timestamp r <= c /\ c <= now.

(** The order of the shutdown, the channels and the WaitGroup. *)
Record shutdown_inv (s : state) : Prop := {
  si_wg : wg s = Z.of_nat (alive (pool s));
  si_ticks : ticks s = if ticks_closed_at (sched s) then ChClosed else ChOpen;
  si_results : results s = if results_closed_at (sched s) then ChClosed else ChOpen;
  si_waited : waited_at (sched s) = true -> alive (pool s) = 0%nat;
  si_crash : crashed s = true ->
             sched s = PEnd ByPanic \/ stopch (burner s) = ChNil
}.

(** The clock and the timestamps. *)
Record time_inv (s : state) : Prop := {
  ti_began : running (sched s) = true -> began s <= clock s;
  ti_emitted : Forall (fun t => t <= clock s) (emitted s);
  ti_sorted : nondecreasing (emitted s);
  ti_pc : match sched s with
          | PSleep now next =>
              now <= clock s /\ began s <= now /\ next <= began s + maxDuration
              /\ Forall (fun t => t <= now) (emitted s)
          | PSleeping wake tick =>
              tick <= wake /\ Forall (fun t => t <= tick) (emitted s)
          | PSelect tick =>
              tick <= clock s /\ Forall (fun t => t <= tick) (emitted s)
          | _ => True
          end;
  ti_busy : Forall (fun t => t <= clock s) (inflight (pool s));
  ti_pending : Forall (made_by_hit (clock s)) (pending (pool s));
  ti_received : Forall (made_by_hit (clock s)) (received s)
}.

(** The counter [done] and the reason of the exit. *)
Record count_inv (s : state) : Prop := {
  ci_locals : sched s <> PInit -> exit_of (sched s) <> Some ByPanic ->
              rate s <> 0 /\ interval s = 1000000000 / rate s
              /\ hits s = wrap64 (rate s * secs s);
  ci_done : running (sched s) = true ->
            done s = wrap64 (Z.of_nat (length (emitted s)));
  ci_before : running (sched s) = true ->
              forall k, 1 <= k <= Z.of_nat (length (emitted s)) -> wrap64 k <> hits s;
  ci_init : sched s = PInit -> emitted s = [];
  ci_hits : exit_of (sched s) = Some ByHits ->
            1 <= Z.of_nat (length (emitted s))
            /\ wrap64 (Z.of_nat (length (emitted s))) = hits s
            /\ forall k, 1 <= k < Z.of_nat (length (emitted s)) -> wrap64 k <> hits s;
  ci_stop : exit_of (sched s) = Some ByStop -> stopch (burner s) = ChClosed;
  ci_panic : exit_of (sched s) = Some ByPanic -> rate s = 0 /\ emitted s = []
}.

(** Every tick taken is answered or still with a worker. *)
Definition account_inv (s : state) : Prop :=
  emitted s ≡ₚ map Timestamp (received s) ++ inflight (pool s).

(** The states a run of [Burn] can reach. *)
Definition reachable (s0 s : state) : Prop := exists ls, steps s0 ls s.

(** The intended instant of tick [n] at rate [rate]: line 86 gives the
    interval, line 90 the instant. *)
Definition intended (rate began n : Z) : Z :=
  next_instant began n (1000000000 / rate).

(** No tick is stamped earlier than its intended instant. *)
Record intended_inv (s : state) : Prop := {
  ii_pc : match sched s with
          | PSleep now next => next = next_instant (began s) (done s) (interval s)
          | PSleeping _ tick | PSelect tick =>
              next_instant (began s) (done s) (interval s) <= tick
          | _ => True
          end;
  ii_emitted : forall (k : nat) t, emitted s !! k = Some t ->
               next_instant (began s) (wrap64 (Z.of_nat k)) (interval s) <= t
}.

(** ** A run in which no invocation fails

    The same events with every [Invoke] succeeding, and the same state with
    every [Error] empty. *)
Definition ok_label (l : label) : label :=
  match l with
  | LInvoke i _ => LInvoke i None
  | _ => l
  end.

Definition ok_result (r : Result) : Result :=
  {| Timestamp := Timestamp r; Latency := Latency r; Error := "" |}.

Definition ok_worker (w : wstate) : wstate :=
  match w with
  | WSend r => WSend (ok_result r)
  | _ => w
  end.

Definition ok_state (s : state) : state :=
  set_received (ok_result <$> received s) (set_pool (ok_worker <$> pool s) s).

(** No call of [Stop] among the events. *)
Definition no_stop (ls : list label) : Prop := LStop ∉ ls.

(** The number of hand-offs among the events. *)
Definition is_handoff (l : label) : bool :=
  match l with LHandoff _ => true | _ => false end.

Definition handoffs (ls : list label) : nat :=
  length (filter (fun l => is_handoff l = true) ls).

(** The three deferred calls happen in the order of the source read
    upwards: wherever [close(results)] occurs, [workers.Wait()] has returned
    before it, and [close(ticks)] before that. *)
Definition shutdown_order (ls : list label) : Prop :=
  forall ls1 ls2, ls = ls1 ++ LCloseResults :: ls2 ->
  exists la lb lc, ls1 = la ++ LCloseTicks :: lb ++ LWaitDone :: lc.

(** The events a worker still has before it: finish [hit], hand the Result
    over, see [ticks] closed. *)
Definition weight (w : wstate) : nat :=
  match w with
  | WBusy _ => 3
  | WSend _ => 2
  | WLoop | WIdle => 1
  | WExit => 0
  end.

Definition backlog (ws : list wstate) : nat := sum_list (weight <$> ws).

(** Everything that holds in every state of every run of [Burn]. *)
Record run_inv (s : state) : Prop := {
  ri_shutdown : shutdown_inv s;
  ri_time : time_inv s;
  ri_count : count_inv s;
  ri_account : account_inv s;
  ri_intended : intended_inv s
}.

(** From [s] the run can go on to the close of the result stream without
    another hand-off. *)
Definition can_finish_quietly (s : state) : Prop :=
  exists ls s', steps s ls s' /\ handoffs ls = 0%nat /\ results s' = ChClosed.

(** ** What [GenBurner] does to the connection *)

(** The calls [GenBurner] makes on the way: [grpc.Dial] (line 48), the
    health check (line 59), [c.Close()] (line 61). *)
Inductive conn_call := CallDial | CallCheck | CallClose.

#[export] Instance conn_call_eq_dec : EqDecision conn_call.
Proof. solve_decision. Defined.

(** The calls of one [GenBurner], in order; [dial] and [check] are the
    errors, if any, of the first two. *)
Definition GenBurner_calls (t : GTargeter) (dial check : option string)
  : list conn_call :=
  if IsEtcd t then []
  else match dial with
       | Some _ => [CallDial]
       | None =>
           match check with
           | Some _ => [CallDial; CallCheck; CallClose]
           | None => [CallDial; CallCheck]
           end
       end.

(** A connection is open afterwards: a dial succeeded and no close
    followed. *)
Definition conn_open (dial : option string) (calls : list conn_call) : bool :=
  bool_decide (CallDial ∈ calls) && bool_decide (dial = None)
  && negb (bool_decide (CallClose ∈ calls)).

(** The number of workers started by the [default] branch. *)
Definition spawns (ls : list label) : nat :=
  length (filter (fun l => l = LSpawn) ls).

(** ** Further invariants of a run *)

(** While the tick stream is open no worker has returned. *)
Definition all_working (s : state) : Prop :=
  ticks s = ChOpen -> alive (pool s) = length (pool s).

(** Once the deferred calls of a panicking scheduler are over the
    process is gone. *)
Definition panic_ends (s : state) : Prop :=
  sched s = PEnd ByPanic -> crashed s = true.

(** Past the first statements of the scheduler, no more ticks are handed
    off than the hit count, when that is at least 1. *)
Definition within_hits (s : state) : Prop :=
  sched s <> PInit -> exit_of (sched s) <> Some ByPanic -> 1 <= hits s ->
  Z.of_nat (length (emitted s)) <= hits s.

(** [x] is [s] but for the clock, the Burner and the crash flag. *)
Definition same_outcome (s x : state) : Prop :=
  sched x = sched s /\ pool x = pool s /\ received x = received s
  /\ emitted x = emitted s /\ ticks x = ticks s /\ results x = results s
  /\ wg x = wg s /\ done x = done s.

(** No tick is stamped before the scheduler started. *)
Record stamped_inv (s : state) : Prop := {
  st_pc : match sched s with
          | PSleeping _ tick | PSelect tick => began s <= tick
          | _ => True
          end;
  st_emitted : Forall (fun t => began s <= t) (emitted s)
}.

(** * Proofs *)

(** ** Lists of workers *)

Lemma alive_cons w ws :
  alive (w :: ws) = ((if decide (w = WExit) then 0 else 1) + alive ws)%nat.
Proof.
  unfold alive. rewrite filter_cons.
  destruct (decide (w <> WExit)), (decide (w = WExit)); simpl; try done.
Qed.

Lemma alive_app ws ws' : alive (ws ++ ws') = (alive ws + alive ws')%nat.
Proof. unfold alive. by rewrite filter_app, length_app. Qed.

Lemma alive_replicate n : alive (replicate n WLoop) = n.
Proof.
  induction n as [|n IH]; [done|].
  change (replicate (S n) WLoop) with (WLoop :: replicate n WLoop).
  rewrite alive_cons, IH. by destruct (decide (WLoop = WExit)).
Qed.

Lemma alive_insert ws i w w' :
  ws !! i = Some w ->
  ((if decide (w = WExit) then 0 else 1) + alive (<[i:=w']> ws) =
   (if decide (w' = WExit) then 0 else 1) + alive ws)%nat.
Proof.
  revert i. induction ws as [|v ws IH]; intros [|i] H; try discriminate.
  - injection H as ->. simpl. rewrite !alive_cons. lia.
  - simpl in *. rewrite !alive_cons. specialize (IH i H). lia.
Qed.

Lemma alive_zero ws i w : alive ws = 0%nat -> ws !! i = Some w -> w = WExit.
Proof.
  revert i. induction ws as [|v ws IH]; intros [|i] H0 H; try discriminate;
    rewrite alive_cons in H0; simpl in H.
  - injection H as <-. destruct (decide (v = WExit)); [done | lia].
  - apply (IH i); [lia | done].
Qed.

Lemma flat_map_insert {A B} (f : A -> list B) ws i w w' :
  ws !! i = Some w ->
  f w ++ flat_map f (<[i:=w']> ws) ≡ₚ f w' ++ flat_map f ws.
Proof.
  revert i. induction ws as [|v ws IH]; intros [|i] H; try discriminate; simpl in *.
  - injection H as ->. by rewrite (Permutation_app_swap_app (f w)).
  - rewrite (Permutation_app_swap_app (f w)), (IH i H).
    by rewrite (Permutation_app_swap_app (f w')).
Qed.

Lemma Forall_flat_map_insert {A B} (P : B -> Prop) (f : A -> list B) ws i w' :
  Forall P (flat_map f ws) -> Forall P (f w') ->
  Forall P (flat_map f (<[i:=w']> ws)).
Proof.
  revert i. induction ws as [|v ws IH]; intros [|i] H H'; simpl in *; try done.
  - apply Forall_app in H as [_ H]. by apply Forall_app.
  - apply Forall_app in H as [Hv H]. apply Forall_app. split; [done | by apply IH].
Qed.

Lemma Forall_flat_map_lookup {A B} (P : B -> Prop) (f : A -> list B) ws i w :
  Forall P (flat_map f ws) -> ws !! i = Some w -> Forall P (f w).
Proof.
  revert i. induction ws as [|v ws IH]; intros [|i] H Hi; try discriminate; simpl in *;
    apply Forall_app in H as [Hv H].
  - by injection Hi as <-.
  - by apply (IH i).
Qed.

Lemma some_idle_lookup ws i : ws !! i = Some WIdle -> some_idle ws = true.
Proof.
  intros H. unfold some_idle. apply existsb_exists. exists WIdle. split.
  - apply list_elem_of_In, list_elem_of_lookup. eauto.
  - by apply bool_decide_eq_true.
Qed.

(** ** One step, case by case *)

Ltac exec1_cases H :=
  unfold exec1 in H;
  match type of H with
  | (if crashed ?s then _ else _) = _ =>
      destruct (crashed s) eqn:?; [discriminate|]
  end;
  match type of H with
  | match ?l with _ => _ end = _ => destruct l
  end;
  repeat match type of H with
    | context [match sched ?s with _ => _ end] => destruct (sched s) eqn:?
    | context [match pool ?s !! ?i with _ => _ end] =>
        destruct (pool s !! i) as [[]|] eqn:?
    | context [match close ?c with _ => _ end] => destruct (close c) eqn:?
    | context [match Stop ?c with _ => _ end] => destruct (Stop c) eqn:?
    | context [if ?b then _ else _] => destruct b eqn:?
    end;
  try discriminate; injection H as <-.

Lemma close_Ret c c' : close c = Ret c' -> c = ChOpen /\ c' = ChClosed.
Proof. destruct c; simpl; intros H; try discriminate. by injection H as <-. Qed.

Lemma Stop_Ret b b' :
  Stop b = Ret b' ->
  Workers b' = Workers b /\ stopch b <> ChNil /\ stopch b' = ChClosed.
Proof.
  unfold Stop. destruct b as [w []]; simpl; intros H; try discriminate;
    injection H as <-; done.
Qed.

Lemma Stop_Panic b m : Stop b = Panic m -> stopch b = ChNil.
Proof. unfold Stop. by destruct b as [w []]. Qed.

Lemma shutdown_inv_init other b rate du t0 :
  0 <= Workers b -> shutdown_inv (Burn other b rate du t0).
Proof.
  intros Hw. split; simpl; try done.
  rewrite alive_replicate. lia.
Qed.

Lemma wg_done_pool s : pool (wg_done s) = pool s.
Proof. unfold wg_done. by destruct (wg s - 1 <? 0). Qed.

Lemma wg_done_alive s :
  wg s = Z.of_nat (S (alive (pool s))) ->
  wg_done s = set_wg (wg s - 1) s.
Proof. intros H. unfold wg_done. destruct (wg s - 1 <? 0) eqn:E; [lia | done]. Qed.

(** The worker at a position that is not [WExit] counts among the living. *)
Lemma alive_exit ws i w :
  ws !! i = Some w -> w <> WExit ->
  alive ws = S (alive (<[i:=WExit]> ws)).
Proof.
  intros H Hw. pose proof (alive_insert ws i w WExit H) as F.
  destruct (decide (w = WExit)); [done|].
  destruct (decide (WExit = WExit)); [lia | done].
Qed.

Lemma alive_keep ws i w w' :
  ws !! i = Some w -> w <> WExit -> w' <> WExit ->
  alive (<[i:=w']> ws) = alive ws.
Proof.
  intros H Hw Hw'. pose proof (alive_insert ws i w w' H) as F.
  destruct (decide (w = WExit)); [done|].
  destruct (decide (w' = WExit)); [done | lia].
Qed.

Lemma alive_pos ws i w : ws !! i = Some w -> w <> WExit -> alive ws <> 0%nat.
Proof. intros H Hw H0. by apply Hw, (alive_zero ws i). Qed.

Ltac step_facts :=
  repeat match goal with
    | E : sched _ = _ |- _ => rewrite E in *; simpl in *
    | E : close _ = Ret _ |- _ => apply close_Ret in E as [? ->]
    | E : Stop _ = Ret _ |- _ => apply Stop_Ret in E as (? & ? & ?)
    | E : Stop _ = Panic _ |- _ => apply Stop_Panic in E
    | E : bool_decide _ = true |- _ => apply bool_decide_eq_true in E
    | E : bool_decide _ = false |- _ => apply bool_decide_eq_false in E
    end.

Lemma shutdown_inv_step s l s' :
  shutdown_inv s -> step s l s' -> shutdown_inv s'.
Proof.
  intros [Hwg Hti Hre Hwa Hcr] H. unfold step in H.
  assert (Hlive : forall i w, pool s !! i = Some w -> w <> WExit ->
                              waited_at (sched s) = false).
  { intros i w Hi Hw. destruct (waited_at (sched s)) eqn:E; [|done].
    by destruct (alive_pos _ _ _ Hi Hw); auto. }
  exec1_cases H;
    try match goal with
      | E : pool s !! _ = Some _ |- _ =>
          pose proof (Hlive _ _ E ltac:(done)) as Hnw
      end;
    try (rewrite wg_done_alive;
         [| simpl; rewrite Hwg; f_equal; by eapply alive_exit]);
    split; simpl in *; step_facts; try done; try congruence; auto;
    try (erewrite alive_keep by (done || eauto); done);
    try (rewrite alive_app; simpl; change (alive [WLoop]) with 1%nat; lia).
  - rewrite Hti in *. done.
  - intros _. apply Z.eqb_eq in Heqb0. lia.
  - intros _. left. by f_equal.
  - rewrite Hre in *. done.
  - destruct (sched s); simpl in *; try done; by rewrite Hre in *.
  - rewrite (alive_exit _ _ _ Heqo) in Hwg by done. lia.
  - rewrite (alive_exit _ _ _ Heqo) in Hwg by done. lia.
Qed.

(** ** Instants and durations *)

Lemma Sub_exact t u :
  minDuration <= t - u <= maxDuration -> Time.Sub t u = t - u.
Proof.
  intros H. unfold Time.Sub.
  destruct (maxDuration <? t - u) eqn:E1; [lia|].
  destruct (t - u <? minDuration) eqn:E2; [lia | done].
Qed.

Lemma Sub_nonneg t u : u <= t -> 0 <= Time.Sub t u.
Proof.
  intros H. unfold Time.Sub, maxDuration, minDuration.
  destruct (_ <? t - u) eqn:E1; [lia|].
  destruct (t - u <? _) eqn:E2; lia.
Qed.

Lemma wrap64_range z : 0 <= wrap64 z < 2 ^ 64.
Proof. unfold wrap64. apply Z.mod_pos_bound. lia. Qed.

Lemma wrap64_small z : 0 <= z < 2 ^ 64 -> wrap64 z = z.
Proof. intros H. unfold wrap64. by apply Z.mod_small. Qed.

Lemma int64_of_uint64_range x :
  0 <= x < 2 ^ 64 -> minDuration <= int64_of_uint64 x <= maxDuration.
Proof.
  intros H. unfold int64_of_uint64, minDuration, maxDuration.
  destruct (x <? 2 ^ 63) eqn:E; lia.
Qed.

Lemma next_instant_le began done interval :
  next_instant began done interval <= began + maxDuration.
Proof.
  unfold next_instant, Time.Add.
  pose proof (int64_of_uint64_range _ (wrap64_range (done * interval))). lia.
Qed.

Lemma max_cases a b : (b < a /\ max a b = a) \/ (a <= b /\ max a b = b).
Proof. unfold max, Time.After. destruct (b <? a) eqn:E; lia. Qed.

Lemma wake_after_tick clock now next :
  now <= clock -> next <= now + maxDuration ->
  max next now <= Time.wake_time clock (Time.Sub next now).
Proof.
  intros Hn Hx. unfold Time.wake_time.
  destruct (max_cases next now) as [[Hlt ->]|[Hle ->]]; [|lia].
  rewrite Sub_exact; [lia|]. unfold minDuration. lia.
Qed.

Lemma nondecreasing_snoc l x :
  nondecreasing l -> Forall (fun t => t <= x) l -> nondecreasing (l ++ [x]).
Proof.
  intros Hs Hx i j a b Hij Hi Hj.
  destruct (decide (j < length l)%nat) as [Hjl|Hjl].
  - rewrite lookup_app_l in Hi, Hj by lia. by apply (Hs i j).
  - assert (j = length l) as ->.
    { apply lookup_lt_Some in Hj. rewrite length_app in Hj. simpl in Hj. lia. }
    rewrite list_lookup_middle in Hj by done. injection Hj as <-.
    destruct (decide (i < length l)%nat) as [Hil|Hil].
    + rewrite lookup_app_l in Hi by lia.
      rewrite Forall_lookup in Hx. by apply (Hx i).
    + assert (i = length l) as -> by lia.
      rewrite list_lookup_middle in Hi by done. injection Hi as <-. lia.
Qed.

Lemma Forall_le_mono (l : list Z) a b :
  a <= b -> Forall (fun t => t <= a) l -> Forall (fun t => t <= b) l.
Proof. intros H HF. eapply Forall_impl; [exact HF|]. simpl. intros; lia. Qed.

Lemma made_by_hit_mono a b r : a <= b -> made_by_hit a r -> made_by_hit b r.
Proof. intros H (err & c & ? & ? & ?). exists err, c. repeat split; [done | done | lia]. Qed.

Lemma Forall_made_mono a b rs :
  a <= b -> Forall (made_by_hit a) rs -> Forall (made_by_hit b) rs.
Proof.
  intros H HF. eapply Forall_impl; [exact HF|]. intros r. by apply made_by_hit_mono.
Qed.

Lemma hit_Timestamp tm err c : Timestamp (hit tm err c) = tm.
Proof. by destruct err. Qed.

Arguments hit : simpl never.

Lemma made_by_hit_hit tm err c : tm <= c -> made_by_hit c (hit tm err c).
Proof. intros H. exists err, c. rewrite hit_Timestamp. repeat split; [done | lia]. Qed.

Lemma time_inv_init other b rate du t0 : time_inv (Burn other b rate du t0).
Proof.
  split; simpl; try done.
  - unfold inflight. induction (Z.to_nat (Workers b)); simpl; done.
  - unfold pending. induction (Z.to_nat (Workers b)); simpl; done.
Qed.

Lemma time_inv_step s l s' : time_inv s -> step s l s' -> time_inv s'.
Proof.
  intros [Hbe Hem Hso Hpc Hbu Hpe Hrc] H. unfold step in H.
  assert (Hbusy : forall i tm, pool s !! i = Some (WBusy tm) -> tm <= clock s).
  { intros i tm Hi. pose proof (Forall_flat_map_lookup _ _ _ _ _ Hbu Hi) as F.
    by apply Forall_inv in F. }
  assert (Hsend : forall i r, pool s !! i = Some (WSend r) -> made_by_hit (clock s) r).
  { intros i r Hi. pose proof (Forall_flat_map_lookup _ _ _ _ _ Hpe Hi) as F.
    by apply Forall_inv in F. }
  exec1_cases H; try rewrite wg_done_pool;
    split; simpl in *; unfold wg_done; simpl;
    repeat match goal with |- context [if ?b then _ else _] => destruct b end;
    simpl; step_facts; try done; auto;
    try match goal with
      | E : (_ <=? _) = true |- _ => apply Z.leb_le in E
      end;
    try (apply Forall_flat_map_insert; [done | simpl; by repeat constructor]);
    try (unfold inflight, pending; rewrite flat_map_app, Forall_app; by split).
  - intros Hr. specialize (Hbe Hr). lia.
  - by apply (Forall_le_mono _ (clock s)).
  - destruct (sched s); try done; intuition lia.
  - by apply (Forall_le_mono _ (clock s)).
  - by apply (Forall_made_mono (clock s)).
  - by apply (Forall_made_mono (clock s)).
  - pose proof (next_instant_le (began s) (done s) (interval s)).
    repeat split; [lia | by apply Hbe | done | done].
  - destruct Hpc as (Hn & Hb & Hx & Hf). split.
    + apply wake_after_tick; lia.
    + apply (Forall_le_mono _ now); [|done].
      destruct (max_cases next now) as [[? ->]|[? ->]]; lia.
  - destruct Hpc as [Ht Hf]. split; [lia | done].
  - apply Forall_app. split; [done|]. repeat constructor. tauto.
  - apply nondecreasing_snoc; tauto.
  - apply Forall_flat_map_insert; [done|]. simpl. repeat constructor. tauto.
  - apply Forall_app. split; [done|]. repeat constructor. tauto.
  - apply nondecreasing_snoc; tauto.
  - apply Forall_flat_map_insert; [done|]. simpl. repeat constructor. tauto.
  - apply Forall_flat_map_insert; [done|]. unfold tick_of. rewrite hit_Timestamp.
    repeat constructor. by apply (Hbusy i).
  - apply Forall_flat_map_insert; [done|]. unfold result_of. repeat constructor.
    apply made_by_hit_hit. by apply (Hbusy i).
  - apply Forall_app. split; [done|]. repeat constructor. by apply (Hsend i).
Qed.

(** ** The counter and the accounts *)

Lemma wrap64_succ z : wrap64 (wrap64 z + 1) = wrap64 (z + 1).
Proof. unfold wrap64. by rewrite Zplus_mod_idemp_l. Qed.

Lemma count_inv_init other b rate du t0 : count_inv (Burn other b rate du t0).
Proof. split; simpl; done. Qed.

Lemma count_inv_step s l s' : count_inv s -> step s l s' -> count_inv s'.
Proof.
  intros [Hlo Hdo Hbf Hin Hhi Hst Hpa] H. unfold step in H.
  exec1_cases H; try rewrite wg_done_pool;
    split; simpl in *; unfold wg_done; simpl;
    repeat match goal with |- context [if ?b then _ else _] => destruct b end;
    simpl; step_facts; try done; auto;
    try match goal with
      | E : (_ =? _) = true |- _ => apply Z.eqb_eq in E
      | E : (_ =? _) = false |- _ => apply Z.eqb_neq in E
      end;
    try (intros; apply Hlo; done).
  - intros _. split; [done | by apply Hin].
  - done.
  - intros _. by rewrite Hin.
  - intros _ k. rewrite Hin by done. simpl. lia.
  - intros _. rewrite length_app, Nat2Z.inj_add. simpl.
    rewrite Hdo, wrap64_succ in Heqb0 by done.
    repeat split; [lia | done |]. intros k Hk. apply Hbf; [done | lia].
  - intros _. rewrite length_app, Nat2Z.inj_add. simpl.
    by rewrite Hdo, wrap64_succ.
  - intros _ k. rewrite length_app, Nat2Z.inj_add. simpl. intros Hk.
    rewrite Hdo, wrap64_succ in Heqb0 by done.
    destruct (decide (k = Z.of_nat (length (emitted s)) + 1)) as [->|Hne]; [done|].
    apply Hbf; [done | lia].
  - intros _. by destruct (stopch (burner s)).
Qed.

Lemma account_inv_init other b rate du t0 : account_inv (Burn other b rate du t0).
Proof.
  unfold account_inv, inflight. simpl.
  induction (Z.to_nat (Workers b)); simpl; done.
Qed.

Lemma account_inv_step s l s' : account_inv s -> step s l s' -> account_inv s'.
Proof.
  unfold account_inv. intros Ha H. unfold step in H.
  exec1_cases H; try rewrite wg_done_pool; unfold wg_done; simpl;
    repeat match goal with |- context [if ?b then _ else _] => destruct b end;
    simpl; try done;
    try match goal with
      | E : pool s !! ?i = Some ?w |- context [inflight (<[?i:=?w']> (pool s))] =>
          pose proof (flat_map_insert tick_of _ _ _ w' E) as F;
          unfold tick_of in F; fold tick_of in F;
          try rewrite hit_Timestamp in F; simpl in F;
          fold (inflight (pool s)) in F;
          fold (inflight (<[i:=w']> (pool s))) in F
      end;
    try (by rewrite F).
  - rewrite F, Ha, <- Permutation_cons_append. apply Permutation_middle.
  - rewrite F, Ha, <- Permutation_cons_append. apply Permutation_middle.
  - unfold inflight. rewrite flat_map_app. simpl. by rewrite app_nil_r.
  - apply Permutation_cons_inv in F. by rewrite F.
  - rewrite map_app, <- app_assoc. simpl. by rewrite F.
Qed.

Lemma intended_inv_init other b rate du t0 : intended_inv (Burn other b rate du t0).
Proof. split; simpl; done. Qed.

Lemma intended_inv_step s l s' :
  count_inv s -> intended_inv s -> step s l s' -> intended_inv s'.
Proof.
  intros [Hlo Hdo Hbf Hin Hhi Hst Hpa] [Hpc Hem] H. unfold step in H.
  exec1_cases H; try rewrite wg_done_pool;
    split; simpl in *; unfold wg_done; simpl;
    repeat match goal with |- context [if ?b then _ else _] => destruct b end;
    simpl; step_facts; try done; auto.
  - intros k t. by rewrite Hin.
  - subst next. destruct (max_cases (next_instant (began s) (done s) (interval s)) now)
      as [[? ->]|[? ->]]; lia.
  - intros k t Hk. destruct (decide (k < length (emitted s))%nat) as [Hlt|Hge].
    + rewrite lookup_app_l in Hk by done. by apply Hem.
    + assert (k = length (emitted s)) as ->.
      { apply lookup_lt_Some in Hk. rewrite length_app in Hk. simpl in Hk. lia. }
      rewrite list_lookup_middle in Hk by done. injection Hk as <-.
      by rewrite <- Hdo.
  - intros k t Hk. destruct (decide (k < length (emitted s))%nat) as [Hlt|Hge].
    + rewrite lookup_app_l in Hk by done. by apply Hem.
    + assert (k = length (emitted s)) as ->.
      { apply lookup_lt_Some in Hk. rewrite length_app in Hk. simpl in Hk. lia. }
      rewrite list_lookup_middle in Hk by done. injection Hk as <-.
      by rewrite <- Hdo.
Qed.

(** ** Runs *)

Lemma steps_nil s s' : steps s [] s' <-> s' = s.
Proof. unfold steps. simpl. split; [by intros [= <-] | by intros ->]. Qed.

Lemma steps_cons s l ls s' :
  steps s (l :: ls) s' <-> exists s1, step s l s1 /\ steps s1 ls s'.
Proof.
  unfold steps, step. simpl. destruct (exec1 s l) as [s1|]; split.
  - intros H. by exists s1.
  - by intros (s2 & [= <-] & H).
  - done.
  - by intros (s2 & ? & _).
Qed.

Lemma steps_app s ls1 ls2 s' :
  steps s (ls1 ++ ls2) s' <-> exists s1, steps s ls1 s1 /\ steps s1 ls2 s'.
Proof.
  revert s. induction ls1 as [|l ls1 IH]; intros s; simpl.
  - split; [intros H; exists s; by rewrite steps_nil | ].
    intros (s1 & H1 & H2). apply steps_nil in H1. by subst.
  - rewrite steps_cons. split.
    + intros (s1 & H1 & H2). apply IH in H2 as (s2 & H2 & H3).
      exists s2. split; [|done]. apply steps_cons. eauto.
    + intros (s2 & H1 & H3). apply steps_cons in H1 as (s1 & H1 & H2).
      exists s1. split; [done|]. apply IH. eauto.
Qed.

Lemma steps_invariant (P : state -> Prop) :
  (forall s l s', P s -> step s l s' -> P s') ->
  forall ls s s', P s -> steps s ls s' -> P s'.
Proof.
  intros Hstep ls. induction ls as [|l ls IH]; intros s s' HP H.
  - apply steps_nil in H. by subst.
  - apply steps_cons in H as (s1 & H1 & H2). eauto.
Qed.


Lemma run_inv_init other b rate du t0 :
  0 <= Workers b -> run_inv (Burn other b rate du t0).
Proof.
  intros H. split.
  - by apply shutdown_inv_init.
  - apply time_inv_init.
  - apply count_inv_init.
  - apply account_inv_init.
  - apply intended_inv_init.
Qed.

Lemma run_inv_step s l s' : run_inv s -> step s l s' -> run_inv s'.
Proof.
  intros [H1 H2 H3 H4 H5] H. split.
  - by apply (shutdown_inv_step s l).
  - by apply (time_inv_step s l).
  - by apply (count_inv_step s l).
  - by apply (account_inv_step s l).
  - by apply (intended_inv_step s l).
Qed.

Lemma run_inv_steps other b rate du t0 ls s :
  0 <= Workers b -> steps (Burn other b rate du t0) ls s -> run_inv s.
Proof.
  intros Hw. apply steps_invariant; [apply run_inv_step | by apply run_inv_init].
Qed.

(** Only [Stop] touches the Burner. *)
Lemma burner_step s l s' : step s l s' -> l <> LStop -> burner s' = burner s.
Proof.
  intros H Hl. unfold step in H.
  exec1_cases H; try done; unfold wg_done; simpl;
    repeat match goal with |- context [if ?b then _ else _] => destruct b end; done.
Qed.

Lemma burner_steps ls s s' : steps s ls s' -> no_stop ls -> burner s' = burner s.
Proof.
  revert s. induction ls as [|l ls IH]; intros s H Hn.
  - apply steps_nil in H. by subst.
  - apply steps_cons in H as (s1 & H1 & H2).
    unfold no_stop in *. rewrite not_elem_of_cons in Hn. destruct Hn as [Hl Hn].
    rewrite (IH _ H2 Hn). by apply (burner_step s l).
Qed.

(** A raised signal stays raised. *)
Lemma stop_closed_step s l s' :
  step s l s' -> stopch (burner s) = ChClosed -> stopch (burner s') = ChClosed.
Proof.
  intros H Hc. destruct (decide (l = LStop)) as [->|Hl].
  - unfold step, exec1 in H. destruct (crashed s); [done|].
    unfold Stop in H. rewrite Hc in H. simpl in H. by injection H as <-.
  - by rewrite (burner_step s l s').
Qed.

(** The arguments of [Burn] stay what they are. *)
Lemma config_step s l s' : step s l s' -> rate s' = rate s /\ secs s' = secs s.
Proof.
  intros H. unfold step in H.
  exec1_cases H; try done; unfold wg_done; simpl;
    repeat match goal with |- context [if ?b then _ else _] => destruct b end; done.
Qed.

Lemma config_steps ls s s' : steps s ls s' -> rate s' = rate s /\ secs s' = secs s.
Proof.
  intros H. apply (steps_invariant (fun x => rate x = rate s /\ secs x = secs s)) in H;
    [done | | done].
  intros s1 l s2 [? ?] Hs. apply config_step in Hs as [-> ->]. done.
Qed.

Lemma alive_zero_inflight ws : alive ws = 0%nat -> inflight ws = [].
Proof.
  induction ws as [|w ws IH]; [done|]. rewrite alive_cons.
  destruct (decide (w = WExit)) as [->|]; [|lia].
  intros H. unfold inflight in *. simpl. by apply IH.
Qed.

Lemma alive_zero_pending ws : alive ws = 0%nat -> pending ws = [].
Proof.
  induction ws as [|w ws IH]; [done|]. rewrite alive_cons.
  destruct (decide (w = WExit)) as [->|]; [|lia].
  intros H. unfold pending in *. simpl. by apply IH.
Qed.

Lemma results_closed_end s :
  shutdown_inv s -> results s = ChClosed -> exists e, sched s = PEnd e.
Proof.
  intros [_ _ Hre _ _] H. rewrite H in Hre.
  destruct (sched s); simpl in Hre; try done. eauto.
Qed.

(** ** The order of the shutdown (C6) *)

Lemma ticks_closed_step s l s' :
  step s l s' -> l <> LCloseTicks ->
  ticks_closed_at (sched s') = true -> ticks_closed_at (sched s) = true.
Proof.
  intros H Hl. unfold step in H.
  exec1_cases H; try done; unfold wg_done; simpl;
    repeat match goal with |- context [if ?b then _ else _] => destruct b end;
    step_facts; done.
Qed.

Lemma waited_step s l s' :
  step s l s' -> l <> LWaitDone ->
  waited_at (sched s') = true -> waited_at (sched s) = true.
Proof.
  intros H Hl. unfold step in H.
  exec1_cases H; try done; unfold wg_done; simpl;
    repeat match goal with |- context [if ?b then _ else _] => destruct b end;
    step_facts; done.
Qed.

Lemma step_LWaitDone s s' :
  step s LWaitDone s' -> ticks_closed_at (sched s) = true.
Proof. intros H. unfold step in H. exec1_cases H. by step_facts. Qed.

Lemma step_LCloseResults s s' :
  step s LCloseResults s' -> waited_at (sched s) = true.
Proof. intros H. unfold step in H. exec1_cases H; by step_facts. Qed.

Lemma order_of_defers ls s0 s :
  ticks_closed_at (sched s0) = false -> steps s0 ls s ->
  (ticks_closed_at (sched s) = true -> exists la lb, ls = la ++ LCloseTicks :: lb)
  /\ (waited_at (sched s) = true ->
      exists la lb lc, ls = la ++ LCloseTicks :: lb ++ LWaitDone :: lc).
Proof.
  intros H0. revert s. induction ls as [|l ls IH] using rev_ind; intros s H.
  - apply steps_nil in H. subst. split; intros Hc.
    + congruence.
    + destruct (sched s0); done.
  - apply steps_app in H as (s1 & H1 & H2).
    apply steps_cons in H2 as (s2 & H2 & H3). apply steps_nil in H3. subst s2.
    destruct (IH s1 H1) as [IHt IHw]. split.
    + intros Hc. destruct (decide (l = LCloseTicks)) as [->|Hl].
      * by exists ls, [].
      * destruct (IHt (ticks_closed_step _ _ _ H2 Hl Hc)) as (la & lb & ->).
        exists la, (lb ++ [l]). by repeat (rewrite <- app_assoc; simpl).
    + intros Hc. destruct (decide (l = LWaitDone)) as [->|Hl].
      * destruct (IHt (step_LWaitDone _ _ H2)) as (la & lb & ->).
        exists la, lb, []. by repeat (rewrite <- app_assoc; simpl).
      * destruct (IHw (waited_step _ _ _ H2 Hl Hc)) as (la & lb & lc & ->).
        exists la, lb, (lc ++ [l]). by repeat (rewrite <- app_assoc; simpl).
Qed.

(** C6: at the end of every run of [Burn] the tick stream is closed first,
    then [workers.Wait()] returns, which it does only once every worker has
    returned, and only then the result stream is closed; so while the result
    stream is closed no worker is left to produce a Result. *)
Theorem shutdown_in_order other b rate du t0 ls s :
  0 <= Workers b ->
  steps (Burn other b rate du t0) ls s ->
  shutdown_order ls
  /\ (forall ls1 ls2, ls = ls1 ++ LWaitDone :: ls2 ->
      exists la lb, ls1 = la ++ LCloseTicks :: lb)
  /\ (waited_at (sched s) = true ->
      ticks s = ChClosed /\ wg s = 0
      /\ forall i w, pool s !! i = Some w -> w = WExit)
  /\ (results s = ChClosed ->
      ticks s = ChClosed /\ wg s = 0
      /\ forall i w, pool s !! i = Some w -> w = WExit).
Proof.
  intros Hw H.
  assert (Hwt : waited_at (sched s) = true ->
                ticks s = ChClosed /\ wg s = 0
                /\ forall i w, pool s !! i = Some w -> w = WExit).
  { intros Hc. destruct (run_inv_steps _ _ _ _ _ _ _ Hw H) as [[Hwg Hti _ Hwa _] _ _ _ _].
    specialize (Hwa Hc). repeat split.
    - rewrite Hti. by destruct (sched s).
    - rewrite Hwg, Hwa. done.
    - intros i w. by apply alive_zero. }
  split; [|split; [|split]].
  - intros ls1 ls2 ->. apply steps_app in H as (s1 & H1 & H2).
    apply steps_cons in H2 as (s2 & H2 & _).
    by apply (order_of_defers ls1 (Burn other b rate du t0) s1),
      (step_LCloseResults s1 s2).
  - intros ls1 ls2 ->. apply steps_app in H as (s1 & H1 & H2).
    apply steps_cons in H2 as (s2 & H2 & _).
    by apply (order_of_defers ls1 (Burn other b rate du t0) s1),
      (step_LWaitDone s1 s2).
  - done.
  - intros Hc. apply Hwt.
    destruct (results_closed_end s) as [e ->]; [|done|done].
    by destruct (run_inv_steps _ _ _ _ _ _ _ Hw H).
Qed.

(** ** Finishing a run *)

Lemma no_stop_nil : no_stop [].
Proof. unfold no_stop. apply not_elem_of_nil. Qed.

Lemma no_stop_cons l ls : l <> LStop -> no_stop ls -> no_stop (l :: ls).
Proof. unfold no_stop. intros Hl Hn. apply not_elem_of_cons. split; [congruence | done]. Qed.

Lemma no_stop_app ls1 ls2 : no_stop ls1 -> no_stop ls2 -> no_stop (ls1 ++ ls2).
Proof. unfold no_stop. intros H1 H2. apply not_elem_of_app. done. Qed.

Lemma handoffs_cons l ls :
  handoffs (l :: ls) = ((if is_handoff l then 1 else 0) + handoffs ls)%nat.
Proof.
  unfold handoffs. rewrite filter_cons.
  destruct (decide (is_handoff l = true)) as [->|Hn]; [done|].
  by destruct (is_handoff l).
Qed.

Lemma handoffs_app ls1 ls2 : handoffs (ls1 ++ ls2) = (handoffs ls1 + handoffs ls2)%nat.
Proof. unfold handoffs. by rewrite filter_app, length_app. Qed.

Lemma emitted_step s l s' :
  step s l s' ->
  length (emitted s') = (length (emitted s) + (if is_handoff l then 1 else 0))%nat.
Proof.
  intros H. unfold step in H.
  exec1_cases H; simpl; unfold wg_done; simpl;
    repeat match goal with |- context [if ?b then _ else _] => destruct b end;
    simpl; rewrite ?length_app; simpl; lia.
Qed.

Lemma emitted_steps ls s s' :
  steps s ls s' -> length (emitted s') = (length (emitted s) + handoffs ls)%nat.
Proof.
  revert s. induction ls as [|l ls IH]; intros s H.
  - apply steps_nil in H. subst. unfold handoffs. simpl. lia.
  - apply steps_cons in H as (s1 & H1 & H2).
    rewrite (IH _ H2), (emitted_step _ _ _ H1), handoffs_cons. lia.
Qed.

Lemma backlog_cons w ws : backlog (w :: ws) = (weight w + backlog ws)%nat.
Proof. done. Qed.

Lemma backlog_insert ws i w w' :
  ws !! i = Some w ->
  (backlog (<[i:=w']> ws) + weight w = backlog ws + weight w')%nat.
Proof.
  revert i. induction ws as [|v ws IH]; intros [|i] H; try discriminate; simpl in *.
  - injection H as ->. rewrite !backlog_cons. lia.
  - rewrite !backlog_cons. specialize (IH i H). lia.
Qed.

Lemma backlog_zero ws : backlog ws = 0%nat -> alive ws = 0%nat.
Proof.
  induction ws as [|w ws IH]; [done|]. rewrite backlog_cons, alive_cons.
  intros H. destruct (decide (w = WExit)) as [->|Hw].
  - apply IH. simpl in H. lia.
  - destruct w; simpl in H; try lia. done.
Qed.

Lemma backlog_pos ws :
  backlog ws <> 0%nat -> exists i w, ws !! i = Some w /\ w <> WExit.
Proof.
  induction ws as [|w ws IH]; [done|]. rewrite backlog_cons. intros H.
  destruct (decide (w = WExit)) as [->|Hw].
  - destruct IH as (i & v & Hi & Hv); [simpl in H; lia|]. by exists (S i), v.
  - by exists 0%nat, w.
Qed.

(** From [workers.Wait()] on, whatever the workers are doing, the run
    can be brought to its end: each worker finishes what it holds and
    leaves, then the two last deferred calls run. *)
Lemma drain n : forall s e,
  backlog (pool s) = n -> crashed s = false -> sched s = PWait e ->
  shutdown_inv s ->
  exists ls s', steps s ls s' /\ no_stop ls /\ handoffs ls = 0%nat
                /\ sched s' = PEnd e /\ results s' = ChClosed.
Proof.
  induction n as [n IH] using lt_wf_ind. intros s e Hn Hc Hp Hinv.
  pose proof Hinv as [Hwg Hti Hre Hwa _]. rewrite Hp in Hti, Hre. simpl in Hti, Hre.
  destruct (decide (n = 0%nat)) as [->|Hpos].
  - apply backlog_zero in Hn. rewrite Hn in Hwg.
    exists [LWaitDone; LCloseResults]. eexists. split; [|split; [|split; [|split]]].
    + unfold steps, exec, exec1. rewrite Hc, Hp, Hwg. simpl.
      rewrite Hc, Hre. simpl. reflexivity.
    + by repeat apply no_stop_cons; try apply no_stop_nil.
    + done.
    + by destruct (bool_decide (e = ByPanic)).
    + by destruct (bool_decide (e = ByPanic)).
  - destruct (backlog_pos (pool s)) as (i & w & Hi & Hw); [lia|].
    assert (Hstep : exists l s1, step s l s1 /\ l <> LStop /\ is_handoff l = false
                      /\ crashed s1 = false /\ sched s1 = PWait e
                      /\ (backlog (pool s1) < n)%nat).
    { destruct w; try done.
      - exists (LWorkerExit i). eexists. split; [|split; [|split; [|split; [|split]]]].
        + unfold step, exec1. rewrite Hc, Hi, Hti. simpl.
          rewrite wg_done_alive; [reflexivity|].
          simpl. rewrite Hwg. f_equal. by eapply alive_exit.
        + done.
        + done.
        + done.
        + done.
        + simpl. pose proof (backlog_insert _ _ _ WExit Hi). simpl in *. lia.
      - exists (LWorkerExit i). eexists. split; [|split; [|split; [|split; [|split]]]].
        + unfold step, exec1. rewrite Hc, Hi, Hti. simpl.
          rewrite wg_done_alive; [reflexivity|].
          simpl. rewrite Hwg. f_equal. by eapply alive_exit.
        + done.
        + done.
        + done.
        + done.
        + simpl. pose proof (backlog_insert _ _ _ WExit Hi). simpl in *. lia.
      - exists (LInvoke i None). eexists. split; [|split; [|split; [|split; [|split]]]].
        + unfold step, exec1. rewrite Hc, Hi. reflexivity.
        + done.
        + done.
        + done.
        + done.
        + simpl. pose proof (backlog_insert _ _ _ (WSend (hit tm None (clock s))) Hi).
          simpl in *. lia.
      - exists (LDeliver i). eexists. split; [|split; [|split; [|split; [|split]]]].
        + unfold step, exec1. rewrite Hc, Hi, Hre. reflexivity.
        + done.
        + done.
        + done.
        + done.
        + simpl. pose proof (backlog_insert _ _ _ WLoop Hi). simpl in *. lia. }
    destruct Hstep as (l & s1 & H1 & Hl & Hh & Hc1 & Hp1 & Hlt).
    destruct (IH _ Hlt s1 e eq_refl Hc1 Hp1 (shutdown_inv_step _ _ _ Hinv H1))
      as (ls & s' & H2 & Hns & Hho & He & Hr).
    exists (l :: ls), s'. split; [|split; [|split]].
    + apply steps_cons. eauto.
    + by apply no_stop_cons.
    + rewrite handoffs_cons, Hh, Hho. done.
    + done.
Qed.

(** ** Single events, with what they need and what they give *)

Lemma steps_one s l s1 ls s' : step s l s1 -> steps s1 ls s' -> steps s (l :: ls) s'.
Proof. intros H1 H2. apply steps_cons. eauto. Qed.

Lemma steps_refl s : steps s [] s.
Proof. by apply steps_nil. Qed.

Lemma step_LInit s :
  crashed s = false -> sched s = PInit -> rate s <> 0 ->
  step s LInit (set_sched PTop
                  (set_locals (1000000000 / rate s) (wrap64 (rate s * secs s))
                              (clock s) 0 s)).
Proof.
  intros Hc Hp Hr. unfold step, exec1. rewrite Hc, Hp.
  apply Z.eqb_neq in Hr. by rewrite Hr.
Qed.

Lemma step_LInit_zero s :
  crashed s = false -> sched s = PInit -> rate s = 0 ->
  step s LInit (set_sched (PCloseTicks ByPanic) s).
Proof. intros Hc Hp Hr. unfold step, exec1. by rewrite Hc, Hp, Hr. Qed.

Lemma step_LNow s :
  crashed s = false -> sched s = PTop ->
  step s LNow (set_sched (PSleep (clock s)
                            (next_instant (began s) (done s) (interval s))) s).
Proof. intros Hc Hp. unfold step, exec1. by rewrite Hc, Hp. Qed.

Lemma step_LSleep s now next :
  crashed s = false -> sched s = PSleep now next ->
  step s LSleep (set_sched (PSleeping (Time.wake_time (clock s) (Time.Sub next now))
                                      (max next now)) s).
Proof. intros Hc Hp. unfold step, exec1. by rewrite Hc, Hp. Qed.

Lemma step_LAdvance s c :
  crashed s = false -> clock s <= c -> step s (LAdvance c) (set_clock c s).
Proof.
  intros Hc Hle. unfold step, exec1. rewrite Hc.
  apply Z.leb_le in Hle. by rewrite Hle.
Qed.

Lemma step_LWake s wake tick :
  crashed s = false -> sched s = PSleeping wake tick -> wake <= clock s ->
  step s LWake (set_sched (PSelect tick) s).
Proof.
  intros Hc Hp Hle. unfold step, exec1. rewrite Hc, Hp.
  apply Z.leb_le in Hle. by rewrite Hle.
Qed.

Lemma step_LHandoff s i tick :
  crashed s = false -> sched s = PSelect tick -> pool s !! i = Some WIdle ->
  step s (LHandoff i)
    (set_sched (if wrap64 (done s + 1) =? hits s then PCloseTicks ByHits else PTop)
       (set_locals (interval s) (hits s) (began s) (wrap64 (done s + 1))
          (set_emitted (emitted s ++ [tick])
             (set_pool (<[i := WBusy tick]> (pool s)) s)))).
Proof. intros Hc Hp Hi. unfold step, exec1. by rewrite Hc, Hp, Hi. Qed.

Lemma step_LStopSeen s tick :
  crashed s = false -> sched s = PSelect tick -> stopch (burner s) = ChClosed ->
  step s LStopSeen (set_sched (PCloseTicks ByStop) s).
Proof. intros Hc Hp Hs. unfold step, exec1. by rewrite Hc, Hp, Hs. Qed.

Lemma step_LSpawn s tick :
  crashed s = false -> sched s = PSelect tick -> some_idle (pool s) = false ->
  stopch (burner s) <> ChClosed ->
  step s LSpawn (set_sched PTop (set_pool (pool s ++ [WLoop]) (set_wg (wg s + 1) s))).
Proof.
  intros Hc Hp Hi Hs. unfold step, exec1. rewrite Hc, Hp, Hi.
  by destruct (stopch (burner s)).
Qed.

Lemma step_LCloseTicks s e :
  crashed s = false -> sched s = PCloseTicks e -> ticks s = ChOpen ->
  step s LCloseTicks (set_sched (PWait e) (set_ticks ChClosed s)).
Proof. intros Hc Hp Ht. unfold step, exec1. by rewrite Hc, Hp, Ht. Qed.

Lemma step_LPark s i :
  crashed s = false -> pool s !! i = Some WLoop -> ticks s = ChOpen ->
  step s (LPark i) (set_pool (<[i := WIdle]> (pool s)) s).
Proof. intros Hc Hi Ht. unfold step, exec1. by rewrite Hc, Hi, Ht. Qed.

Lemma step_LInvoke s i tm err :
  crashed s = false -> pool s !! i = Some (WBusy tm) ->
  step s (LInvoke i err) (set_pool (<[i := WSend (hit tm err (clock s))]> (pool s)) s).
Proof. intros Hc Hi. unfold step, exec1. by rewrite Hc, Hi. Qed.

Lemma step_LDeliver s i r :
  crashed s = false -> pool s !! i = Some (WSend r) -> results s = ChOpen ->
  step s (LDeliver i)
    (set_received (received s ++ [r]) (set_pool (<[i := WLoop]> (pool s)) s)).
Proof. intros Hc Hi Hr. unfold step, exec1. by rewrite Hc, Hi, Hr. Qed.

Ltac st_simpl :=
  cbn [clock crashed sched burner rate secs interval hits began done ticks
       results pool wg emitted received set_clock set_crashed set_sched
       set_burner set_locals set_ticks set_results set_pool set_wg
       set_emitted set_received Burn].

(** One pass of the loop with worker 0 taking the tick. *)
Lemma round_steps err s :
  crashed s = false -> sched s = PTop -> pool s !! 0%nat = Some WIdle ->
  ticks s = ChOpen -> results s = ChOpen -> began s <= clock s ->
  exists s', steps s (round err s) s'
    /\ crashed s' = false /\ pool s' = pool s /\ ticks s' = ChOpen
    /\ results s' = ChOpen /\ began s' = began s /\ began s' <= clock s'
    /\ hits s' = hits s /\ done s' = wrap64 (done s + 1)
    /\ sched s' = (if wrap64 (done s + 1) =? hits s then PCloseTicks ByHits else PTop)
    /\ burner s' = burner s /\ wg s' = wg s.
Proof.
  intros Hc Hp Hi Hti Hre Hbe.
  assert (Hlen : (0 < length (pool s))%nat) by (by apply lookup_lt_Some in Hi).
  unfold round.
  set (next := next_instant (began s) (done s) (interval s)).
  set (wake := Time.wake_time (clock s) (Time.Sub next (clock s))).
  assert (Hwake : clock s <= wake).
  { unfold wake, Time.wake_time. lia. }
  eexists. split.
  - eapply steps_one; [by apply step_LNow|].
    eapply steps_one; [by eapply step_LSleep|].
    eapply steps_one; [by apply step_LAdvance|].
    eapply steps_one; [eapply step_LWake; [done | reflexivity | st_simpl; reflexivity]|].
    eapply steps_one; [by eapply step_LHandoff|].
    eapply steps_one; [eapply step_LInvoke; [done|]; st_simpl;
                       by apply list_lookup_insert_eq|].
    eapply steps_one; [eapply step_LDeliver; [done | | done]; st_simpl;
                       apply list_lookup_insert_eq; by rewrite length_insert|].
    eapply steps_one; [eapply step_LPark; [done | | done]; st_simpl;
                       apply list_lookup_insert_eq; by rewrite !length_insert|].
    apply steps_refl.
  - st_simpl. rewrite !list_insert_insert_eq, list_insert_id by assumption.
    repeat split; first [reflexivity | assumption | lia].
Qed.

(** The scheduler loop run [n] more times, worker 0 taking every tick,
    until the hit count is reached. *)
Lemma rounds_to_hits n : forall s,
  crashed s = false -> sched s = PTop -> pool s !! 0%nat = Some WIdle ->
  ticks s = ChOpen -> results s = ChOpen -> began s <= clock s ->
  0 <= done s -> done s + Z.of_nat (S n) = hits s -> hits s < 2 ^ 64 ->
  exists ls s', steps s ls s' /\ no_stop ls
    /\ crashed s' = false /\ sched s' = PCloseTicks ByHits
    /\ ticks s' = ChOpen /\ burner s' = burner s.
Proof.
  induction n as [|n IH]; intros s Hc Hp Hi Hti Hre Hbe Hd Hn Hh;
    destruct (round_steps None s Hc Hp Hi Hti Hre Hbe)
      as (s1 & H1 & Hc1 & Hpo1 & Hti1 & Hre1 & Hbe1 & Hle1 & Hh1 & Hd1 & Hp1 & Hb1 & Hw1);
    rewrite wrap64_small in Hd1, Hp1 by lia.
  - exists (round None s), s1. repeat split; try done.
    + unfold round. by repeat apply no_stop_cons; try apply no_stop_nil.
    + rewrite Hp1. replace (done s + 1) with (hits s) by lia. by rewrite Z.eqb_refl.
  - destruct (IH s1) as (ls & s' & H2 & Hns & Hc2 & Hp2 & Hti2 & Hb2); try done.
    + rewrite Hp1. destruct (done s + 1 =? hits s) eqn:E; [|done].
      apply Z.eqb_eq in E. lia.
    + by rewrite Hpo1.
    + lia.
    + lia.
    + lia.
    + exists (round None s ++ ls), s'. repeat split; try done.
      * apply steps_app. eauto.
      * apply no_stop_app; [|done].
        unfold round. by repeat apply no_stop_cons; try apply no_stop_nil.
      * congruence.
Qed.

Lemma next_instant_0 began interval : next_instant began 0 interval = began.
Proof. unfold next_instant, Time.Add. rewrite Z.mul_0_l. change (wrap64 0) with 0.
  change (int64_of_uint64 0) with 0. lia. Qed.

Lemma wake_at_once t i : Time.wake_time t (Time.Sub (next_instant t 0 i) t) = t.
Proof.
  rewrite next_instant_0, Sub_exact; unfold Time.wake_time, minDuration, maxDuration; lia.
Qed.

(** The run up to the first pass of the loop, worker 0 waiting for a tick. *)
Lemma startup_steps other b rate du t0 :
  0 <= Workers b -> rate <> 0 -> stopch b <> ChClosed ->
  exists ls s, steps (Burn other b rate du t0) ls s /\ no_stop ls
    /\ crashed s = false /\ sched s = PTop /\ pool s !! 0%nat = Some WIdle
    /\ ticks s = ChOpen /\ results s = ChOpen /\ began s <= clock s
    /\ done s = 0 /\ hits s = wrap64 (rate * uint64_Seconds other du)
    /\ burner s = b.
Proof.
  intros Hw Hr Hs.
  destruct (Z.to_nat (Workers b)) as [|k] eqn:Ek.
  - exists [LInit; LNow; LSleep; LWake; LSpawn; LPark 0]. eexists. split.
    + eapply steps_one; [by apply step_LInit|].
      eapply steps_one; [by apply step_LNow|].
      eapply steps_one; [by eapply step_LSleep|].
      eapply steps_one; [eapply step_LWake; [done | reflexivity |]; st_simpl;
                         by rewrite wake_at_once|].
      eapply steps_one; [eapply step_LSpawn; [done | reflexivity | | done]; st_simpl;
                         by rewrite Ek|].
      eapply steps_one; [eapply step_LPark; [done | | done]; st_simpl;
                         by rewrite Ek|].
      apply steps_refl.
    + st_simpl. rewrite Ek.
      repeat split; first [reflexivity | assumption | lia | idtac].
      by repeat apply no_stop_cons; try apply no_stop_nil.
  - exists [LInit; LPark 0]. eexists. split.
    + eapply steps_one; [by apply step_LInit|].
      eapply steps_one; [eapply step_LPark; [done | | done]; st_simpl;
                         by rewrite Ek|].
      apply steps_refl.
    + st_simpl. rewrite Ek.
      repeat split; first [reflexivity | assumption | lia | idtac].
      by repeat apply no_stop_cons; try apply no_stop_nil.
Qed.

(** Every run without cancellation that closes the result stream has
    delivered the hit count. *)
Lemma closed_means_hits other b rate du t0 ls s :
  0 <= Workers b -> stopch b <> ChClosed -> rate <> 0 ->
  1 <= wrap64 (rate * uint64_Seconds other du) ->
  steps (Burn other b rate du t0) ls s -> no_stop ls -> results s = ChClosed ->
  Z.of_nat (length (received s)) = wrap64 (rate * uint64_Seconds other du).
Proof.
  intros Hw Hs Hr Hh H Hns Hc.
  pose proof (run_inv_steps _ _ _ _ _ _ _ Hw H) as [Hsi _ Hci Hai _].
  destruct (results_closed_end s Hsi Hc) as [e He].
  pose proof (burner_steps _ _ _ H Hns) as Hb.
  pose proof (config_steps _ _ _ H) as [Hra Hse]. simpl in Hb, Hra, Hse.
  destruct Hci as [Hlo _ _ _ Hhi Hst Hpa]. rewrite He in *. simpl in *.
  destruct e.
  - destruct Hlo as (_ & _ & Hhits); [done | done |].
    destruct Hhi as (H1 & H2 & H3); [done|].
    rewrite Hra, Hse in Hhits. rewrite <- Hhits in *.
    pose proof (wrap64_range (rate * uint64_Seconds other du)) as Hrg.
    rewrite <- Hhits in Hrg.
    assert (Hlen : Z.of_nat (length (emitted s)) = hits s).
    { destruct (Z.lt_trichotomy (Z.of_nat (length (emitted s))) (hits s)) as [Hlt|[Heq|Hgt]].
      - rewrite wrap64_small in H2 by lia. done.
      - done.
      - destruct (H3 (hits s)); [lia|]. apply wrap64_small. lia. }
    destruct Hsi as [_ _ _ Hwa _]. rewrite He in Hwa. specialize (Hwa eq_refl).
    unfold account_inv in Hai. rewrite (alive_zero_inflight _ Hwa), app_nil_r in Hai.
    apply Permutation_length in Hai. rewrite length_map in Hai. lia.
  - rewrite Hb in Hst. by destruct Hs; apply Hst.
  - destruct Hpa as [Hz _]; [done|]. congruence.
Qed.


(** ** The stop signal (C2, C3) *)

(** C2 fails on the code: [GenBurner] leaves [stopch] at its zero value,
    the [select] of [Stop] falls to [default], and [close] of the [nil]
    channel panics at the first call. *)
Theorem Stop_after_GenBurner_panics t dial check ncpu :
  match GenBurner t dial check ncpu with
  | inl b => Stop b = Panic "close of nil channel"
             /\ forall n, Stop_n (S n) b = Panic "close of nil channel"
  | inr _ => True
  end.
Proof.
  unfold GenBurner. destruct (IsEtcd t); [done|].
  destruct dial; [done|]. destruct check; [done|].
  split; [done|]. intros n. done.
Qed.

(** On a Burner whose channel was made, [Stop] is idempotent. *)
Lemma Stop_made_idempotent b n :
  stopch b <> ChNil ->
  Stop_n (S n) b = Ret {| Workers := Workers b; stopch := ChClosed |}.
Proof.
  intros Hb. destruct b as [w c]. simpl in *.
  assert (H1 : Stop {| Workers := w; stopch := c |}
               = Ret {| Workers := w; stopch := ChClosed |}) by (by destruct c).
  rewrite H1. clear H1 Hb. induction n as [|n IH]; [done|]. simpl. apply IH.
Qed.

(** In a run, [Stop] on the Burner of [GenBurner] ends the process. *)
Lemma Stop_nil_crashes s s' :
  stopch (burner s) = ChNil -> step s LStop s' -> crashed s' = true.
Proof.
  intros Hn H. unfold step, exec1 in H. destruct (crashed s); [done|].
  unfold Stop in H. rewrite Hn in H. simpl in H. by injection H as <-.
Qed.


Lemma can_finish_step s l s1 :
  step s l s1 -> is_handoff l = false -> can_finish_quietly s1 -> can_finish_quietly s.
Proof.
  intros H Hl (ls & s' & H' & Hh & Hr). exists (l :: ls), s'. repeat split; [|..|done].
  - by apply (steps_one s l s1).
  - by rewrite handoffs_cons, Hl.
Qed.

Lemma finish_from_wait s e :
  shutdown_inv s -> crashed s = false -> sched s = PWait e -> can_finish_quietly s.
Proof.
  intros Hi Hc Hp. destruct (drain _ s e eq_refl Hc Hp Hi) as (ls & s' & ? & ? & ? & ? & ?).
  by exists ls, s'.
Qed.

Lemma finish_from_close_ticks s e :
  shutdown_inv s -> crashed s = false -> sched s = PCloseTicks e -> can_finish_quietly s.
Proof.
  intros Hi Hc Hp.
  assert (Ht : ticks s = ChOpen) by (destruct Hi as [_ Ht _ _ _]; by rewrite Hp in Ht).
  pose proof (step_LCloseTicks s e Hc Hp Ht) as H.
  eapply can_finish_step; [exact H | done |].
  eapply finish_from_wait;
    [eapply shutdown_inv_step; [exact Hi | exact H] | done | reflexivity].
Qed.

Lemma finish_from_select s tick :
  shutdown_inv s -> crashed s = false -> sched s = PSelect tick ->
  stopch (burner s) = ChClosed -> can_finish_quietly s.
Proof.
  intros Hi Hc Hp Hs. pose proof (step_LStopSeen s tick Hc Hp Hs) as H.
  eapply can_finish_step; [exact H | done |].
  eapply finish_from_close_ticks;
    [eapply shutdown_inv_step; [exact Hi | exact H] | done | reflexivity].
Qed.

Lemma finish_from_sleeping s wake tick :
  shutdown_inv s -> crashed s = false -> sched s = PSleeping wake tick ->
  stopch (burner s) = ChClosed -> can_finish_quietly s.
Proof.
  intros Hi Hc Hp Hs.
  assert (H1 : step s (LAdvance (Z.max (clock s) wake)) (set_clock (Z.max (clock s) wake) s))
    by (apply step_LAdvance; [done | lia]).
  eapply can_finish_step; [exact H1 | done |].
  assert (H2 : step (set_clock (Z.max (clock s) wake) s) LWake
                 (set_sched (PSelect tick) (set_clock (Z.max (clock s) wake) s))).
  { eapply step_LWake; [done | exact Hp | st_simpl; lia]. }
  eapply can_finish_step; [exact H2 | done |].
  eapply finish_from_select; [| done | reflexivity | done].
  eapply shutdown_inv_step; [|exact H2]. by eapply shutdown_inv_step.
Qed.

Lemma finish_from_sleep s now next :
  shutdown_inv s -> crashed s = false -> sched s = PSleep now next ->
  stopch (burner s) = ChClosed -> can_finish_quietly s.
Proof.
  intros Hi Hc Hp Hs. pose proof (step_LSleep s now next Hc Hp) as H.
  eapply can_finish_step; [exact H | done |].
  eapply finish_from_sleeping; [by eapply shutdown_inv_step | done | reflexivity | done].
Qed.

Lemma finish_from_top s :
  shutdown_inv s -> crashed s = false -> sched s = PTop ->
  stopch (burner s) = ChClosed -> can_finish_quietly s.
Proof.
  intros Hi Hc Hp Hs. pose proof (step_LNow s Hc Hp) as H.
  eapply can_finish_step; [exact H | done |].
  eapply finish_from_sleep; [by eapply shutdown_inv_step | done | reflexivity | done].
Qed.

Lemma finish_from_init s :
  shutdown_inv s -> crashed s = false -> sched s = PInit ->
  stopch (burner s) = ChClosed -> can_finish_quietly s.
Proof.
  intros Hi Hc Hp Hs. destruct (decide (rate s = 0)) as [Hr|Hr].
  - pose proof (step_LInit_zero s Hc Hp Hr) as H.
    eapply can_finish_step; [exact H | done |].
    eapply finish_from_close_ticks; [by eapply shutdown_inv_step | done | reflexivity].
  - pose proof (step_LInit s Hc Hp Hr) as H.
    eapply can_finish_step; [exact H | done |].
    eapply finish_from_top; [by eapply shutdown_inv_step | done | reflexivity | done].
Qed.

(** Once the signal is raised a run can always be brought to the close of
    the result stream without another hand-off. *)
Lemma finish_after_stop s :
  shutdown_inv s -> stopch (burner s) = ChClosed -> can_finish_quietly s.
Proof.
  intros Hi Hs.
  assert (Hend : results s = ChClosed -> can_finish_quietly s).
  { intros Hr. exists [], s. split; [apply steps_refl | by split]. }
  destruct (crashed s) eqn:Hc.
  { destruct Hi as [_ _ Hre _ Hcr]. destruct (Hcr Hc) as [Hp|Hn]; [|congruence].
    apply Hend. by rewrite Hre, Hp. }
  destruct (sched s) eqn:Hp.
  - by apply finish_from_init.
  - by apply finish_from_top.
  - by eapply finish_from_sleep.
  - by eapply finish_from_sleeping.
  - by eapply finish_from_select.
  - by eapply finish_from_close_ticks.
  - by eapply finish_from_wait.
  - assert (Hr : results s = ChOpen) by (destruct Hi as [_ _ Hr _ _]; by rewrite Hp in Hr).
    assert (H : step s LCloseResults
                  (if bool_decide (e = ByPanic)
                   then set_crashed (set_sched (PEnd e) (set_results ChClosed s))
                   else set_sched (PEnd e) (set_results ChClosed s))).
    { unfold step, exec1. by rewrite Hc, Hp, Hr. }
    eapply can_finish_step; [exact H | done |].
    eexists [], _. split; [apply steps_refl | split; [done|]].
    by destruct (bool_decide _).
  - apply Hend. destruct Hi as [_ _ Hr _ _]. by rewrite Hp in Hr.
Qed.

Lemma spawn_needs_no_signal s s' :
  step s LSpawn s' -> stopch (burner s) <> ChClosed.
Proof.
  intros H Hs. unfold step, exec1 in H. destruct (crashed s); [done|].
  destruct (sched s); try done. rewrite Hs in H. simpl in H.
  by rewrite orb_true_r in H.
Qed.

Lemma no_spawn_after_stop ls : forall s s',
  stopch (burner s) = ChClosed -> steps s ls s' -> LSpawn ∉ ls.
Proof.
  induction ls as [|l ls IH]; intros s s' Hs H; [apply not_elem_of_nil|].
  apply steps_cons in H as (s1 & H1 & H2). apply not_elem_of_cons. split.
  - intros <-. by apply (spawn_needs_no_signal _ _ H1).
  - apply (IH s1 s'); [|done]. by apply (stop_closed_step s l).
Qed.

(** C3, as the code has it: when the stop signal is raised before any
    tick was handed off, the scheduler never starts another worker, a Result
    can only come from a tick that the [select] hands to a waiting worker
    instead of receiving the signal, so there are at most as many Results as
    such hand-offs and none without one; and the run can always go on to
    the close of the result stream without any hand-off, with zero Results. *)
Theorem stop_before_first_tick other b rate du t0 ls s :
  0 <= Workers b ->
  steps (Burn other b rate du t0) ls s ->
  stopch (burner s) = ChClosed -> emitted s = [] ->
  (forall ls' s', steps s ls' s' ->
     (LSpawn ∉ ls') /\ (length (received s') <= handoffs ls')%nat)
  /\ (exists ls' s', steps s ls' s' /\ handoffs ls' = 0%nat
                     /\ results s' = ChClosed /\ received s' = []).
Proof.
  intros Hw H Hs He.
  assert (Hcount : forall ls' s', steps s ls' s' ->
                   (length (received s') <= handoffs ls')%nat).
  { intros ls' s' H'.
    assert (Hall : steps (Burn other b rate du t0) (ls ++ ls') s')
      by (apply steps_app; eauto).
    destruct (run_inv_steps _ _ _ _ _ _ _ Hw Hall) as [_ _ _ Hai _].
    apply Permutation_length in Hai. rewrite length_app, length_map in Hai.
    rewrite (emitted_steps _ _ _ H'), He in Hai. simpl in Hai. lia. }
  split.
  - intros ls' s' H'. split; [by apply (no_spawn_after_stop ls' s s') | by apply Hcount].
  - destruct (finish_after_stop s) as (ls' & s' & H' & Hh & Hr); [|done|].
    { by destruct (run_inv_steps _ _ _ _ _ _ _ Hw H). }
    exists ls', s'. repeat split; try done.
    specialize (Hcount _ _ H'). rewrite Hh in Hcount.
    destruct (received s'); [done | simpl in Hcount; lia].
Qed.

(** ** The intended instants (C4) *)

Lemma wrap64_mul_l a b : wrap64 (wrap64 a * b) = wrap64 (a * b).
Proof. unfold wrap64. by rewrite Zmult_mod_idemp_l. Qed.

Lemma next_instant_exact began n i :
  0 <= n * i < 2 ^ 63 -> next_instant began n i = began + n * i.
Proof.
  intros H. unfold next_instant, Time.Add, int64_of_uint64.
  rewrite wrap64_small by lia.
  destruct (n * i <? 2 ^ 63) eqn:E; [done | lia].
Qed.

Lemma next_instant_wrap began n i :
  next_instant began (wrap64 n) i = next_instant began n i.
Proof. unfold next_instant. by rewrite wrap64_mul_l. Qed.

Lemma emitted_means_running s :
  count_inv s -> emitted s <> [] ->
  rate s <> 0 /\ interval s = 1000000000 / rate s.
Proof.
  intros [Hlo _ _ Hin _ _ Hpa] He.
  destruct Hlo as (? & ? & _); [| |done].
  - intros Hp. by apply He, Hin.
  - intros Hp. by apply He, Hpa.
Qed.


(** ** A hit count of zero (C5) *)

(** C5, as the code has it: with a rate of at least 1 and
    [rate * uint64(du.Seconds())] equal to 0, the test [done == hits] fails
    at each of the first [2^64 - 1] hand-offs ([done] comes back to 0 only at
    hand-off [2^64]); until then the scheduler leaves its loop only through
    the cancellation branch, with the signal raised. *)
Theorem zero_hits_never_reached other b rate du t0 ls s :
  0 <= Workers b -> 0 < rate ->
  wrap64 (rate * uint64_Seconds other du) = 0 ->
  steps (Burn other b rate du t0) ls s ->
  (exit_of (sched s) = Some ByHits -> 2 ^ 64 <= Z.of_nat (length (emitted s)))
  /\ (forall e, exit_of (sched s) = Some e ->
        Z.of_nat (length (emitted s)) < 2 ^ 64 ->
        e = ByStop /\ stopch (burner s) = ChClosed).
Proof.
  intros Hw Hr Hh H.
  destruct (run_inv_steps _ _ _ _ _ _ _ Hw H) as [_ _ [Hlo _ _ _ Hhi Hst Hpa] _ _].
  destruct (config_steps _ _ _ H) as [Hra Hse]. simpl in Hra, Hse.
  assert (Hby : exit_of (sched s) = Some ByHits ->
                2 ^ 64 <= Z.of_nat (length (emitted s))).
  { intros He. destruct (Hhi He) as (H1 & H2 & _).
    destruct Hlo as (_ & _ & Hhs).
    - intros Hp. by rewrite Hp in He.
    - by rewrite He.
    - rewrite Hhs, Hra, Hse, Hh in H2.
      destruct (Z.lt_ge_cases (Z.of_nat (length (emitted s))) (2 ^ 64)) as [Hlt|]; [|done].
      rewrite wrap64_small in H2 by lia. lia. }
  split; [done|]. intros e He Hlt. destruct e.
  - specialize (Hby He). lia.
  - split; [done | by apply Hst].
  - destruct (Hpa He) as [Hz _]. lia.
Qed.

(** ** One Result per tick (C7) *)

Lemma hit_Latency tm err c : Latency (hit tm err c) = Time.Since c tm.
Proof. by destruct err. Qed.

Lemma hit_Error tm err c : Error (hit tm err c) = default "" err.
Proof. by destruct err. Qed.


(** ** Latency (C8) *)


(** ** Tick timestamps (C10) *)

(** C10: the ticks handed off carry timestamps that never decrease in the
    order of emission. *)
Theorem ticks_nondecreasing other b rate du t0 ls s :
  0 <= Workers b ->
  steps (Burn other b rate du t0) ls s ->
  nondecreasing (emitted s).
Proof.
  intros Hw H. by destruct (run_inv_steps _ _ _ _ _ _ _ Hw H) as [_ [_ _ Hso _ _ _ _] _ _ _].
Qed.
(** ** Failed invocations (C9) *)

Lemma ok_result_hit tm err c : ok_result (hit tm err c) = hit tm None c.
Proof. by destruct err. Qed.

Lemma some_idle_ok ws : some_idle (ok_worker <$> ws) = some_idle ws.
Proof.
  unfold some_idle. induction ws as [|w ws IH]; [done|].
  rewrite fmap_cons. cbn [existsb]. rewrite IH. by destruct w.
Qed.

Lemma lookup_ok (ws : list wstate) (i : nat) :
  (ok_worker <$> ws) !! i = ok_worker <$> (ws !! i).
Proof. apply list_lookup_fmap. Qed.

Lemma ok_state_wg_done s : ok_state (wg_done s) = wg_done (ok_state s).
Proof. unfold wg_done, ok_state. st_simpl. by destruct (wg s - 1 <? 0). Qed.

Lemma ok_state_Burn other b rate du t0 :
  ok_state (Burn other b rate du t0) = Burn other b rate du t0.
Proof. unfold ok_state, Burn. st_simpl. by rewrite fmap_replicate. Qed.

Lemma ok_state_fields s :
  crashed (ok_state s) = crashed s /\ sched (ok_state s) = sched s
  /\ pool (ok_state s) = ok_worker <$> pool s
  /\ clock (ok_state s) = clock s /\ burner (ok_state s) = burner s
  /\ ticks (ok_state s) = ticks s /\ results (ok_state s) = results s
  /\ rate (ok_state s) = rate s /\ wg (ok_state s) = wg s.
Proof. done. Qed.

(** A run stays a run when every invocation is made to succeed, and ends
    in the same state but for the [Error] fields. *)
Lemma ok_step s l s' : step s l s' -> step (ok_state s) (ok_label l) (ok_state s').
Proof.
  intros H. unfold step in H.
  destruct (ok_state_fields s) as (Fc & Fs & Fp & Fk & Fb & Ft & Fr & Fa & Fw).
  exec1_cases H; unfold step, exec1, ok_label;
    try rewrite ok_state_wg_done;
    rewrite ?Fc, ?Fs, ?Fp, ?Fk, ?Fb, ?Ft, ?Fr, ?Fa, ?Fw, ?lookup_ok, ?some_idle_ok;
    repeat match goal with
      | E : _ = _ |- _ => rewrite E
      end;
    cbn [fmap option_fmap option_map ok_worker];
    unfold ok_state; st_simpl;
    rewrite ?list_fmap_insert, ?fmap_app;
    cbn [ok_worker]; rewrite ?ok_result_hit;
    repeat match goal with
      | E : _ = _ |- _ => rewrite E
      end;
    reflexivity.
Qed.

Lemma ok_steps ls : forall s s',
  steps s ls s' -> steps (ok_state s) (ok_label <$> ls) (ok_state s').
Proof.
  induction ls as [|l ls IH]; intros s s' H.
  - apply steps_nil in H. subst. apply steps_refl.
  - apply steps_cons in H as (s1 & H1 & H2). rewrite fmap_cons.
    eapply steps_one; [by apply ok_step | by apply IH].
Qed.


(** ** The theorems at concrete runs *)

Lemma no_stop_decide ls : bool_decide (LStop ∉ ls) = true -> no_stop ls.
Proof. apply bool_decide_eq_true_1. Qed.



Lemma elem_of_decide {A} `{EqDecision A} (x : A) (l : list A) :
  bool_decide (x ∈ l) = true -> x ∈ l.
Proof. apply bool_decide_eq_true_1. Qed.

(** C3 as stated fails: [Stop] is called before anything else happens,
    worker 0 is already waiting at the first [select], the [select] hands
    it the tick, and the run ends with one Result. *)
Lemma stop_first_counterexample :
  exists s,
    steps (Burn 0 {| Workers := 1; stopch := ChOpen |} 10 1000000000 0)
          [LStop; LInit; LPark 0; LNow; LSleep; LWake; LHandoff 0;
           LInvoke 0 None; LDeliver 0; LNow; LSleep; LAdvance 100000000; LWake;
           LStopSeen; LCloseTicks; LWorkerExit 0; LWaitDone; LCloseResults] s
    /\ results s = ChClosed
    /\ length (received s) = 1%nat.
Proof. eexists. split; [vm_compute; reflexivity|]. by split. Qed.

Lemma stop_before_first_tick_witness :
  exists s,
    0 <= Workers {| Workers := 1; stopch := ChOpen |}
    /\ steps (Burn 0 {| Workers := 1; stopch := ChOpen |} 10 1000000000 0) [LStop] s
    /\ stopch (burner s) = ChClosed /\ emitted s = []
    /\ ((forall ls' s', steps s ls' s' ->
           (LSpawn ∉ ls') /\ (length (received s') <= handoffs ls')%nat)
        /\ (exists ls' s', steps s ls' s' /\ handoffs ls' = 0%nat
                           /\ results s' = ChClosed /\ received s' = [])).
Proof.
  eexists.
  assert (H1 : 0 <= Workers {| Workers := 1; stopch := ChOpen |}) by (simpl; lia).
  split; [exact H1|].
  split; [vm_compute; reflexivity|].
  split; [reflexivity|]. split; [reflexivity|].
  apply (stop_before_first_tick 0 {| Workers := 1; stopch := ChOpen |} 10 1000000000 0
           [LStop] _ H1); [vm_compute; reflexivity | reflexivity | reflexivity].
Defined.



(** C5 as stated fails: with a rate of 0 the hit count is 0 and the run
    ends without cancellation, through the division by zero at line 86;
    and [done], a [uint64], is 0 again after [2^64] increments. *)
Lemma zero_hits_counterexample :
  wrap64 (0 * uint64_Seconds 0 500000000) = 0
  /\ (exists s,
        steps (Burn 0 {| Workers := 1; stopch := ChOpen |} 0 500000000 0)
              [LInit; LCloseTicks; LWorkerExit 0; LWaitDone; LCloseResults] s
        /\ no_stop [LInit; LCloseTicks; LWorkerExit 0; LWaitDone; LCloseResults]
        /\ sched s = PEnd ByPanic /\ results s = ChClosed
        /\ stopch (burner s) = ChOpen)
  /\ wrap64 (2 ^ 64) = 0.
Proof.
  split; [by vm_compute|]. split; [|by vm_compute].
  eexists. split; [vm_compute; reflexivity|].
  split; [apply no_stop_decide; vm_compute; reflexivity|]. by repeat split.
Qed.

Lemma zero_hits_never_reached_witness :
  exists s,
    0 <= Workers {| Workers := 1; stopch := ChOpen |}
    /\ 0 < 10
    /\ wrap64 (10 * uint64_Seconds 0 999999999) = 0
    /\ steps (Burn 0 {| Workers := 1; stopch := ChOpen |} 10 999999999 0)
         [LInit; LPark 0; LNow; LSleep; LWake; LHandoff 0; LStop; LNow; LSleep;
          LAdvance 100000000; LWake; LStopSeen] s
    /\ ((exit_of (sched s) = Some ByHits -> 2 ^ 64 <= Z.of_nat (length (emitted s)))
        /\ (forall e, exit_of (sched s) = Some e ->
              Z.of_nat (length (emitted s)) < 2 ^ 64 ->
              e = ByStop /\ stopch (burner s) = ChClosed)).
Proof.
  eexists.
  assert (H1 : 0 <= Workers {| Workers := 1; stopch := ChOpen |}) by (simpl; lia).
  assert (H2 : 0 < 10) by lia.
  assert (H3 : wrap64 (10 * uint64_Seconds 0 999999999) = 0) by (vm_compute; reflexivity).
  split; [exact H1|]. split; [exact H2|]. split; [exact H3|].
  split; [vm_compute; reflexivity|].
  apply (zero_hits_never_reached 0 {| Workers := 1; stopch := ChOpen |} 10 999999999 0
           [LInit; LPark 0; LNow; LSleep; LWake; LHandoff 0; LStop; LNow; LSleep;
            LAdvance 100000000; LWake; LStopSeen] _ H1 H2 H3).
  vm_compute; reflexivity.
Defined.

Lemma shutdown_in_order_witness :
  exists s,
    0 <= Workers {| Workers := 2; stopch := ChNil |}
    /\ steps (Burn 0 {| Workers := 2; stopch := ChNil |} 2 1000000000 0)
         (full_run None 2 (Burn 0 {| Workers := 2; stopch := ChNil |} 2 1000000000 0)) s
    /\ (shutdown_order
          (full_run None 2 (Burn 0 {| Workers := 2; stopch := ChNil |} 2 1000000000 0))
        /\ (forall ls1 ls2,
              full_run None 2 (Burn 0 {| Workers := 2; stopch := ChNil |} 2 1000000000 0)
              = ls1 ++ LWaitDone :: ls2 ->
              exists la lb, ls1 = la ++ LCloseTicks :: lb)
        /\ (waited_at (sched s) = true ->
            ticks s = ChClosed /\ wg s = 0
            /\ forall i w, pool s !! i = Some w -> w = WExit)
        /\ (results s = ChClosed ->
            ticks s = ChClosed /\ wg s = 0
            /\ forall i w, pool s !! i = Some w -> w = WExit)).
Proof.
  eexists.
  assert (H1 : 0 <= Workers {| Workers := 2; stopch := ChNil |}) by (simpl; lia).
  split; [exact H1|]. split; [vm_compute; reflexivity|].
  apply (shutdown_in_order 0 {| Workers := 2; stopch := ChNil |} 2 1000000000 0
           (full_run None 2 (Burn 0 {| Workers := 2; stopch := ChNil |} 2 1000000000 0))
           _ H1).
  vm_compute; reflexivity.
Defined.




Lemma ticks_nondecreasing_witness :
  exists s,
    0 <= Workers {| Workers := 1; stopch := ChNil |}
    /\ steps (Burn 0 {| Workers := 1; stopch := ChNil |} 10 1000000000 0)
         (full_run None 10 (Burn 0 {| Workers := 1; stopch := ChNil |} 10 1000000000 0)) s
    /\ nondecreasing (emitted s).
Proof.
  eexists.
  assert (H1 : 0 <= Workers {| Workers := 1; stopch := ChNil |}) by (simpl; lia).
  split; [exact H1|]. split; [vm_compute; reflexivity|].
  apply (ticks_nondecreasing 0 {| Workers := 1; stopch := ChNil |} 10 1000000000 0
           (full_run None 10 (Burn 0 {| Workers := 1; stopch := ChNil |} 10 1000000000 0))
           _ H1).
  vm_compute; reflexivity.
Defined.

(** * Further properties

    [GenBurner], [Stop], the scheduler of [Burn] around its [select], the
    pool of [burn] workers, and the binary64 arithmetic of [du.Seconds()]. *)

(** ** [Stop] on a made channel *)

(** X1: on a Burner whose [stopch] was made, any number of calls of
    [Stop], one after the other, return without a panic and leave the channel
    closed; after the first call a further call changes nothing. *)
Theorem Stop_idempotent b n :
  stopch b <> ChNil ->
  Stop_n (S n) b = Ret {| Workers := Workers b; stopch := ChClosed |}
  /\ Stop {| Workers := Workers b; stopch := ChClosed |}
     = Ret {| Workers := Workers b; stopch := ChClosed |}.
Proof. intros Hb. split; [by apply Stop_made_idempotent | done]. Qed.

Lemma Stop_idempotent_witness :
  stopch {| Workers := 4; stopch := ChOpen |} <> ChNil
  /\ (Stop_n 3 {| Workers := 4; stopch := ChOpen |}
      = Ret {| Workers := Workers {| Workers := 4; stopch := ChOpen |};
               stopch := ChClosed |}
      /\ Stop {| Workers := Workers {| Workers := 4; stopch := ChOpen |};
                 stopch := ChClosed |}
         = Ret {| Workers := Workers {| Workers := 4; stopch := ChOpen |};
                  stopch := ChClosed |}).
Proof.
  assert (H : stopch {| Workers := 4; stopch := ChOpen |} <> ChNil) by (simpl; discriminate).
  split; [exact H|]. exact (Stop_idempotent {| Workers := 4; stopch := ChOpen |} 2 H).
Defined.

(** ** [GenBurner] *)


(** ** The pool of workers *)

Lemma spawns_cons l ls :
  spawns (l :: ls) = ((if decide (l = LSpawn) then 1 else 0) + spawns ls)%nat.
Proof. unfold spawns. rewrite filter_cons. by destruct (decide (l = LSpawn)). Qed.

Lemma pool_length_step s l s' :
  step s l s' ->
  length (pool s') = (length (pool s) + (if decide (l = LSpawn) then 1 else 0))%nat.
Proof.
  intros H. unfold step in H.
  exec1_cases H; try rewrite wg_done_pool; st_simpl;
    rewrite ?length_insert, ?length_app; simpl; lia.
Qed.

Lemma pool_length_steps ls : forall s s',
  steps s ls s' -> length (pool s') = (length (pool s) + spawns ls)%nat.
Proof.
  induction ls as [|l ls IH]; intros s s' H.
  - apply steps_nil in H. subst. unfold spawns. simpl. lia.
  - apply steps_cons in H as (s1 & H1 & H2).
    rewrite (IH _ _ H2), (pool_length_step _ _ _ H1), spawns_cons. lia.
Qed.

Lemma alive_le_length ws : (alive ws <= length ws)%nat.
Proof.
  induction ws as [|w ws IH]; [done|]. rewrite alive_cons. simpl.
  destruct (decide (w = WExit)); lia.
Qed.

Lemma all_working_step s l s' : all_working s -> step s l s' -> all_working s'.
Proof.
  unfold all_working. intros Ha H. unfold step in H.
  exec1_cases H; try rewrite wg_done_pool; unfold wg_done; st_simpl;
    repeat match goal with |- context [if ?b then _ else _] => destruct b end;
    st_simpl; step_facts; try done;
    try (intros Ht; rewrite length_insert, <- Ha by done; by eapply alive_keep);
    try (intros Ht; rewrite Ht in *; done).
  intros Ht. rewrite alive_app, length_app, Ha by done.
  change (alive [WLoop]) with 1%nat. done.
Qed.

(** X3: the pool only grows: it holds the [b.Workers] workers of the start
    and one more for each pass through the [default] branch; no worker
    returns while the tick stream is open; and the WaitGroup counter is
    always the number of workers that have not returned, so it never goes
    below zero. *)
Theorem pool_only_grows other b rate du t0 ls s :
  0 <= Workers b ->
  steps (Burn other b rate du t0) ls s ->
  length (pool s) = (Z.to_nat (Workers b) + spawns ls)%nat
  /\ (ticks s = ChOpen -> forall i w, pool s !! i = Some w -> w <> WExit)
  /\ wg s = Z.of_nat (alive (pool s))
  /\ 0 <= wg s <= Z.of_nat (length (pool s)).
Proof.
  intros Hw H.
  pose proof (run_inv_steps _ _ _ _ _ _ _ Hw H) as [[Hwg _ _ _ _] _ _ _ _].
  assert (Ha : all_working s).
  { apply (steps_invariant all_working all_working_step ls
             (Burn other b rate du t0) s); [|done].
    intros _. simpl. by rewrite alive_replicate, length_replicate. }
  split; [|split; [|split]].
  - rewrite (pool_length_steps _ _ _ H). simpl. by rewrite length_replicate.
  - intros Ht i w Hi ->. specialize (Ha Ht).
    pose proof (alive_insert _ _ _ WLoop Hi) as F.
    pose proof (alive_le_length (<[i:=WLoop]> (pool s))) as G.
    rewrite length_insert in G.
    destruct (decide (WExit = WExit)); [|done].
    destruct (decide (WLoop = WExit)); [done|]. lia.
  - done.
  - pose proof (alive_le_length (pool s)). lia.
Qed.

Lemma pool_only_grows_witness :
  exists s,
    0 <= Workers {| Workers := 0; stopch := ChNil |}
    /\ steps (Burn 0 {| Workers := 0; stopch := ChNil |} 2 1000000000 0)
         (full_run None 2 (Burn 0 {| Workers := 0; stopch := ChNil |} 2 1000000000 0)) s
    /\ (length (pool s)
        = (Z.to_nat (Workers {| Workers := 0; stopch := ChNil |})
           + spawns (full_run None 2
                       (Burn 0 {| Workers := 0; stopch := ChNil |} 2 1000000000 0)))%nat
        /\ (ticks s = ChOpen -> forall i w, pool s !! i = Some w -> w <> WExit)
        /\ wg s = Z.of_nat (alive (pool s))
        /\ 0 <= wg s <= Z.of_nat (length (pool s))).
Proof.
  eexists.
  assert (H1 : 0 <= Workers {| Workers := 0; stopch := ChNil |}) by (simpl; lia).
  split; [exact H1|]. split; [vm_compute; reflexivity|].
  apply (pool_only_grows 0 {| Workers := 0; stopch := ChNil |} 2 1000000000 0
           (full_run None 2 (Burn 0 {| Workers := 0; stopch := ChNil |} 2 1000000000 0))
           _ H1).
  vm_compute; reflexivity.
Defined.

(** ** The [select] *)

Lemma some_idle_true ws : some_idle ws = true -> exists i, ws !! i = Some WIdle.
Proof.
  unfold some_idle. intros H. apply existsb_exists in H as (w & Hin & Hw).
  apply bool_decide_eq_true in Hw. subst.
  apply list_elem_of_In, list_elem_of_lookup in Hin. done.
Qed.



(** ** Cancellation with calls in flight *)

Lemma emitted_quiet_step s l s' :
  step s l s' -> is_handoff l = false -> emitted s' = emitted s.
Proof.
  intros H Hl. unfold step in H.
  exec1_cases H; try done; unfold wg_done; st_simpl;
    repeat match goal with |- context [if ?b then _ else _] => destruct b end; done.
Qed.

Lemma emitted_quiet_steps ls : forall s s',
  steps s ls s' -> handoffs ls = 0%nat -> emitted s' = emitted s.
Proof.
  induction ls as [|l ls IH]; intros s s' H Hh.
  - apply steps_nil in H. by subst.
  - apply steps_cons in H as (s1 & H1 & H2). rewrite handoffs_cons in Hh.
    destruct (is_handoff l) eqn:E; [lia|].
    rewrite (IH _ _ H2) by lia. by apply (emitted_quiet_step s l).
Qed.



(** ** A rate of zero *)

Lemma panic_ends_step s l s' : panic_ends s -> step s l s' -> panic_ends s'.
Proof.
  unfold panic_ends. intros Hp H. unfold step in H.
  exec1_cases H; unfold wg_done; st_simpl;
    repeat match goal with |- context [if ?b then _ else _] => destruct b eqn:? end;
    st_simpl; step_facts; try done;
    try (intros Hs; specialize (Hp Hs); congruence).
  intros [= ->]. done.
Qed.

(** X6: with a rate of 0 line 86 divides by zero: no tick is ever handed
    off and no Result produced, the scheduler never enters its loop, the
    deferred calls still close both streams in order, and the process ends
    with the panic as soon as the result stream is closed; such a run
    exists whatever the duration. *)
Theorem rate_zero_panics other b du t0 :
  0 <= Workers b ->
  (forall ls s, steps (Burn other b 0 du t0) ls s ->
     emitted s = [] /\ received s = [] /\ running (sched s) = false
     /\ (forall e, exit_of (sched s) = Some e -> e = ByPanic)
     /\ (results s = ChClosed -> crashed s = true))
  /\ (exists ls s, steps (Burn other b 0 du t0) ls s /\ no_stop ls
        /\ results s = ChClosed /\ crashed s = true).
Proof.
  intros Hw.
  assert (Hall : forall ls s, steps (Burn other b 0 du t0) ls s ->
     emitted s = [] /\ received s = [] /\ running (sched s) = false
     /\ (forall e, exit_of (sched s) = Some e -> e = ByPanic)
     /\ (results s = ChClosed -> crashed s = true)).
  { intros ls s H.
    pose proof (run_inv_steps _ _ _ _ _ _ _ Hw H) as [Hsi _ Hci Hai _].
    destruct (config_steps _ _ _ H) as [Hra _]. simpl in Hra.
    destruct Hci as [Hlo _ _ Hin _ _ Hpa].
    assert (Hcase : sched s = PInit \/ exit_of (sched s) = Some ByPanic).
    { destruct (decide (sched s = PInit)) as [|Hn]; [by left | right].
      destruct (decide (exit_of (sched s) = Some ByPanic)) as [|Hn']; [done|].
      destruct (Hlo Hn Hn') as [Hr _]. congruence. }
    assert (He : emitted s = []).
    { destruct Hcase as [Hp|Hp]; [by apply Hin | by apply Hpa]. }
    split; [done|]. split; [|split; [|split]].
    - unfold account_inv in Hai. rewrite He in Hai.
      symmetry in Hai. apply Permutation_nil_r in Hai.
      apply app_eq_nil in Hai as [Hai _]. by destruct (received s).
    - destruct Hcase as [Hp|Hp]; [by rewrite Hp | by destruct (sched s)].
    - intros e Hx. destruct Hcase as [Hp|Hp]; [by rewrite Hp in Hx | congruence].
    - intros Hr. destruct (results_closed_end s Hsi Hr) as [e Hx].
      assert (e = ByPanic) as ->.
      { destruct Hcase as [Hp|Hp]; rewrite Hx in Hp; simpl in Hp; congruence. }
      apply (steps_invariant panic_ends panic_ends_step ls
               (Burn other b 0 du t0) s); done. }
  split; [done|].
  assert (H1 : step (Burn other b 0 du t0) LInit
                 (set_sched (PCloseTicks ByPanic) (Burn other b 0 du t0)))
    by (by apply step_LInit_zero).
  assert (H2 : step (set_sched (PCloseTicks ByPanic) (Burn other b 0 du t0)) LCloseTicks
                 (set_sched (PWait ByPanic)
                    (set_ticks ChClosed
                       (set_sched (PCloseTicks ByPanic) (Burn other b 0 du t0)))))
    by (by apply step_LCloseTicks).
  assert (H12 : steps (Burn other b 0 du t0) [LInit; LCloseTicks]
                  (set_sched (PWait ByPanic)
                     (set_ticks ChClosed
                        (set_sched (PCloseTicks ByPanic) (Burn other b 0 du t0))))).
  { eapply steps_one; [exact H1|]. eapply steps_one; [exact H2 | apply steps_refl]. }
  destruct (drain _ (set_sched (PWait ByPanic)
                       (set_ticks ChClosed
                          (set_sched (PCloseTicks ByPanic) (Burn other b 0 du t0))))
              ByPanic eq_refl eq_refl eq_refl
              (ri_shutdown _ (run_inv_steps _ _ _ _ _ _ _ Hw H12)))
    as (ls & s & H3 & Hn & _ & _ & Hr).
  exists ([LInit; LCloseTicks] ++ ls), s.
  assert (H123 : steps (Burn other b 0 du t0) ([LInit; LCloseTicks] ++ ls) s)
    by (apply steps_app; eauto).
  repeat split; try done.
  - apply no_stop_app; [|done]. by repeat apply no_stop_cons; try apply no_stop_nil.
  - by apply (Hall _ _ H123).
Qed.

Lemma rate_zero_panics_witness :
  0 <= Workers {| Workers := 2; stopch := ChNil |}
  /\ ((forall ls s,
         steps (Burn 0 {| Workers := 2; stopch := ChNil |} 0 1000000000 0) ls s ->
         emitted s = [] /\ received s = [] /\ running (sched s) = false
         /\ (forall e, exit_of (sched s) = Some e -> e = ByPanic)
         /\ (results s = ChClosed -> crashed s = true))
      /\ (exists ls s,
            steps (Burn 0 {| Workers := 2; stopch := ChNil |} 0 1000000000 0) ls s
            /\ no_stop ls /\ results s = ChClosed /\ crashed s = true)).
Proof.
  assert (H1 : 0 <= Workers {| Workers := 2; stopch := ChNil |}) by (simpl; lia).
  split; [exact H1|].
  exact (rate_zero_panics 0 {| Workers := 2; stopch := ChNil |} 1000000000 0 H1).
Defined.

(** ** What can end the process *)

Lemma crash_cause s l s' :
  shutdown_inv s -> step s l s' -> crashed s' = true ->
  (l = LCloseResults /\ sched s' = PEnd ByPanic)
  \/ (l = LStop /\ stopch (burner s) = ChNil).
Proof.
  intros [Hwg Hti Hre Hwa _] H Hc. unfold step in H.
  assert (Hlive : forall i w, pool s !! i = Some w -> w <> WExit ->
                              waited_at (sched s) = false).
  { intros i w Hi Hw. destruct (waited_at (sched s)) eqn:E; [|done].
    by destruct (alive_pos _ _ _ Hi Hw); auto. }
  exec1_cases H;
    try match goal with
      | E : pool s !! _ = Some _ |- _ =>
          pose proof (Hlive _ _ E ltac:(done)) as Hnw
      end;
    try (rewrite wg_done_alive in Hc;
         [| st_simpl; rewrite Hwg; f_equal; by eapply alive_exit]);
    st_simpl; simpl in Hc; step_facts; try congruence; auto.
  - rewrite Hti in *. done.
  - left. split; [done|]. by f_equal.
  - rewrite Hre in *. done.
  - destruct (sched s); simpl in *; try done; by rewrite Hre in *.
Qed.

Lemma nil_stays_nil s l s' :
  step s l s' -> (stopch (burner s') = ChNil <-> stopch (burner s) = ChNil).
Proof.
  intros H. destruct (decide (l = LStop)) as [->|Hl].
  - unfold step, exec1 in H. destruct (crashed s); [done|].
    destruct (Stop (burner s)) eqn:E; injection H as <-; [|done]. st_simpl.
    apply Stop_Ret in E as (_ & Hn & Hc). rewrite Hc. split; [done | by intros ?].
  - by rewrite (burner_step s l s').
Qed.

Lemma step_not_crashed s l s' : step s l s' -> crashed s = false.
Proof. unfold step, exec1. by destruct (crashed s). Qed.



(** ** Never more ticks than the hit count *)

Lemma running_below_hits s :
  count_inv s -> running (sched s) = true -> 1 <= hits s ->
  Z.of_nat (length (emitted s)) < hits s.
Proof.
  intros [Hlo _ Hbf _ _ _ _] Hr Hh.
  destruct (Z.lt_ge_cases (Z.of_nat (length (emitted s))) (hits s)) as [|Hge]; [done|].
  destruct Hlo as (_ & _ & Hhs).
  - intros Hp. by rewrite Hp in Hr.
  - by destruct (sched s).
  - destruct (Hbf Hr (hits s)); [lia|].
    apply wrap64_small. rewrite Hhs. apply wrap64_range.
Qed.

Lemma within_hits_step s l s' :
  count_inv s -> within_hits s -> step s l s' -> within_hits s'.
Proof.
  intros Hci Hwi H. pose proof (running_below_hits s Hci) as Hrun.
  destruct Hci as [_ _ _ Hin _ _ _].
  unfold within_hits in *. unfold step in H.
  exec1_cases H; unfold wg_done; st_simpl;
    repeat match goal with |- context [if ?b then _ else _] => destruct b eqn:? end;
    st_simpl; step_facts; try done; try (intros; apply Hwi; done).
  - intros _ _ Hh. rewrite Hin by done. simpl. lia.
  - intros _ _ Hh. rewrite length_app, Nat2Z.inj_add. simpl.
    specialize (Hrun eq_refl Hh). lia.
  - intros _ _ Hh. rewrite length_app, Nat2Z.inj_add. simpl.
    specialize (Hrun eq_refl Hh). lia.
Qed.

(** X8: cancelled or not, a run with a rate of at least 1 and a hit count
    [h] of at least 1 never hands off more than [h] ticks, and the caller
    never receives more Results than ticks were handed off. *)
Theorem never_more_than_hits other b rate du t0 ls s :
  0 <= Workers b -> 0 < rate ->
  1 <= wrap64 (rate * uint64_Seconds other du) ->
  steps (Burn other b rate du t0) ls s ->
  (length (received s) <= length (emitted s))%nat
  /\ Z.of_nat (length (emitted s)) <= wrap64 (rate * uint64_Seconds other du).
Proof.
  intros Hw Hr Hh H. split.
  - destruct (run_inv_steps _ _ _ _ _ _ _ Hw H) as [_ _ _ Hai _].
    apply Permutation_length in Hai. rewrite length_app, length_map in Hai. lia.
  - assert (Hinv : count_inv s /\ within_hits s).
    { apply (steps_invariant (fun x => count_inv x /\ within_hits x)) with
        (ls := ls) (s := Burn other b rate du t0); [| |done].
      - intros x l x' [Hc Hx] Hs. split; [by eapply count_inv_step|].
        by eapply within_hits_step.
      - split; [apply count_inv_init | by intros ?]. }
    destruct Hinv as [Hci Hwi].
    destruct (config_steps _ _ _ H) as [Hra Hse]. simpl in Hra, Hse.
    destruct (decide (sched s = PInit)) as [Hp|Hp].
    { destruct Hci as [_ _ _ Hin _ _ _]. rewrite Hin by done. simpl. lia. }
    assert (Hnp : exit_of (sched s) <> Some ByPanic).
    { intros Hx. destruct Hci as [_ _ _ _ _ _ Hpa]. destruct (Hpa Hx). lia. }
    destruct Hci as [Hlo _ _ _ _ _ _]. destruct (Hlo Hp Hnp) as (_ & _ & Hhs).
    rewrite Hra, Hse in Hhs. rewrite <- Hhs. apply Hwi; try done. by rewrite Hhs.
Qed.

Lemma never_more_than_hits_witness :
  exists s,
    0 <= Workers {| Workers := 2; stopch := ChOpen |}
    /\ 0 < 10
    /\ 1 <= wrap64 (10 * uint64_Seconds 0 1000000000)
    /\ steps (Burn 0 {| Workers := 2; stopch := ChOpen |} 10 1000000000 0)
         [LInit; LPark 0; LPark 1; LNow; LSleep; LWake; LHandoff 1;
          LNow; LSleep; LAdvance 100000000; LWake; LHandoff 0; LStop;
          LInvoke 0 None; LDeliver 0] s
    /\ ((length (received s) <= length (emitted s))%nat
        /\ Z.of_nat (length (emitted s)) <= wrap64 (10 * uint64_Seconds 0 1000000000)).
Proof.
  eexists.
  assert (H1 : 0 <= Workers {| Workers := 2; stopch := ChOpen |}) by (simpl; lia).
  assert (H2 : 0 < 10) by lia.
  assert (H3 : 1 <= wrap64 (10 * uint64_Seconds 0 1000000000))
    by (vm_compute; discriminate).
  split; [exact H1|]. split; [exact H2|]. split; [exact H3|].
  split; [vm_compute; reflexivity|].
  apply (never_more_than_hits 0 {| Workers := 2; stopch := ChOpen |} 10 1000000000 0
           [LInit; LPark 0; LPark 1; LNow; LSleep; LWake; LHandoff 1;
            LNow; LSleep; LAdvance 100000000; LWake; LHandoff 0; LStop;
            LInvoke 0 None; LDeliver 0] _ H1 H2 H3).
  vm_compute; reflexivity.
Defined.

(** ** Rates above one call a nanosecond *)

(** X9: [1e9 / rate] is 0 for a rate above [1e9]: every intended instant
    is the start instant, so whenever the scheduler is about to call
    [time.Sleep] the duration is not positive, the call returns at once and
    the tick is stamped with the clock reading: the run is not paced. *)
Theorem no_pacing_above_1e9 other b rate du t0 ls s now next :
  0 <= Workers b -> 1000000000 < rate ->
  steps (Burn other b rate du t0) ls s ->
  sched s = PSleep now next ->
  (forall n, intended rate (began s) n = began s)
  /\ next = began s
  /\ Time.Sub next now <= 0
  /\ Time.wake_time (clock s) (Time.Sub next now) = clock s
  /\ max next now = now.
Proof.
  intros Hw Hr H Hp.
  assert (Hq : 1000000000 / rate = 0) by (apply Z.div_small; lia).
  assert (Hint : forall n, intended rate (began s) n = began s).
  { intros n. unfold intended. rewrite Hq. unfold next_instant, Time.Add.
    rewrite Z.mul_0_r. change (int64_of_uint64 (wrap64 0)) with 0. lia. }
  destruct (run_inv_steps _ _ _ _ _ _ _ Hw H) as [_ [_ _ _ Hpc _ _ _] Hci _ [Hii _]].
  destruct (config_steps _ _ _ H) as [Hra _]. simpl in Hra.
  rewrite Hp in Hpc, Hii. destruct Hpc as (_ & Hb & _ & _).
  destruct Hci as [Hlo _ _ _ _ _ _].
  destruct Hlo as (_ & Hiv & _); [by rewrite Hp | by rewrite Hp |].
  rewrite Hra in Hiv.
  assert (Hn : next = began s).
  { rewrite Hii, Hiv. apply Hint. }
  assert (Hs : Time.Sub next now <= 0).
  { unfold Time.Sub, maxDuration, minDuration.
    destruct (_ <? next - now) eqn:E1; [lia|].
    destruct (next - now <? _) eqn:E2; lia. }
  repeat split; try done.
  - unfold Time.wake_time. lia.
  - destruct (max_cases next now) as [[? ->]|[? ->]]; lia.
Qed.

Lemma no_pacing_above_1e9_witness :
  exists s,
    0 <= Workers {| Workers := 1; stopch := ChNil |}
    /\ 1000000000 < 2000000000
    /\ steps (Burn 0 {| Workers := 1; stopch := ChNil |} 2000000000 1000000000 3)
         [LInit; LPark 0; LNow; LSleep; LWake; LHandoff 0; LAdvance 8; LNow] s
    /\ sched s = PSleep 8 3
    /\ ((forall n, intended 2000000000 (began s) n = began s)
        /\ 3 = began s
        /\ Time.Sub 3 8 <= 0
        /\ Time.wake_time (clock s) (Time.Sub 3 8) = clock s
        /\ max 3 8 = 8).
Proof.
  eexists.
  assert (H1 : 0 <= Workers {| Workers := 1; stopch := ChNil |}) by (simpl; lia).
  assert (H2 : 1000000000 < 2000000000) by lia.
  split; [exact H1|]. split; [exact H2|].
  split; [vm_compute; reflexivity|]. split; [reflexivity|].
  apply (no_pacing_above_1e9 0 {| Workers := 1; stopch := ChNil |} 2000000000
           1000000000 3 [LInit; LPark 0; LNow; LSleep; LWake; LHandoff 0; LAdvance 8; LNow]
           _ 8 3 H1 H2); [vm_compute; reflexivity | reflexivity].
Defined.

(** ** After the close of the result stream *)

Lemma final_step s e x l x' :
  sched s = PEnd e -> alive (pool s) = 0%nat ->
  same_outcome s x -> step x l x' -> same_outcome s x'.
Proof.
  intros Hpe Hal (Hp & Hpo & Hr & He & Ht & Hrs & Hw & Hd) H.
  assert (Hex : forall i w, pool x !! i = Some w -> w = WExit).
  { intros i w. rewrite Hpo. by apply alive_zero. }
  rewrite Hpe in Hp.
  unfold same_outcome. unfold step in H.
  exec1_cases H; try congruence;
    try match goal with
      | E : pool x !! _ = Some _ |- _ => by pose proof (Hex _ _ E)
      end;
    st_simpl; rewrite ?Hpe; done.
Qed.

(** X10: the close of the result stream is final: whatever happens
    afterwards (the clock moves, [Stop] is called), no tick is handed off, no
    Result is received, no worker is started and both streams stay closed. *)
Theorem closed_is_final other b rate du t0 ls s ls' s' :
  0 <= Workers b ->
  steps (Burn other b rate du t0) ls s ->
  results s = ChClosed ->
  steps s ls' s' ->
  received s' = received s /\ emitted s' = emitted s /\ pool s' = pool s
  /\ ticks s' = ChClosed /\ results s' = ChClosed
  /\ handoffs ls' = 0%nat /\ spawns ls' = 0%nat.
Proof.
  intros Hw H Hr H'.
  pose proof (run_inv_steps _ _ _ _ _ _ _ Hw H) as [Hsi _ _ _ _].
  destruct (results_closed_end s Hsi Hr) as [e Hpe].
  destruct Hsi as [_ Ht _ Hwa _]. rewrite Hpe in Ht, Hwa. simpl in Ht.
  assert (Hal : alive (pool s) = 0%nat) by (by apply Hwa).
  assert (Hsame : same_outcome s s').
  { apply (steps_invariant (same_outcome s)
             (fun x l x' => final_step s e x l x' Hpe Hal) ls' s s');
      [by repeat split | done]. }
  destruct Hsame as (Hp' & Hpo & Hrc & He & Ht' & Hrs & _ & _).
  repeat split; try congruence.
  - pose proof (emitted_steps _ _ _ H') as Hl. rewrite He in Hl. lia.
  - pose proof (pool_length_steps _ _ _ H') as Hl. rewrite Hpo in Hl. lia.
Qed.

Lemma closed_is_final_witness :
  exists s s',
    0 <= Workers {| Workers := 1; stopch := ChOpen |}
    /\ steps (Burn 0 {| Workers := 1; stopch := ChOpen |} 2 1000000000 0)
         (full_run None 2 (Burn 0 {| Workers := 1; stopch := ChOpen |} 2 1000000000 0)) s
    /\ results s = ChClosed
    /\ steps s [LAdvance 5000000000; LStop; LStop] s'
    /\ (received s' = received s /\ emitted s' = emitted s /\ pool s' = pool s
        /\ ticks s' = ChClosed /\ results s' = ChClosed
        /\ handoffs [LAdvance 5000000000; LStop; LStop] = 0%nat
        /\ spawns [LAdvance 5000000000; LStop; LStop] = 0%nat).
Proof.
  eexists _, _.
  assert (H1 : 0 <= Workers {| Workers := 1; stopch := ChOpen |}) by (simpl; lia).
  split; [exact H1|]. split; [vm_compute; reflexivity|]. split; [reflexivity|].
  split; [vm_compute; reflexivity|].
  apply (closed_is_final 0 {| Workers := 1; stopch := ChOpen |} 2 1000000000 0
           (full_run None 2 (Burn 0 {| Workers := 1; stopch := ChOpen |} 2 1000000000 0))
           _ [LAdvance 5000000000; LStop; LStop] _ H1);
    [vm_compute; reflexivity | reflexivity | vm_compute; reflexivity].
Defined.

(** ** Where the timestamps lie *)

Lemma stamped_inv_step s l s' :
  count_inv s -> time_inv s -> stamped_inv s -> step s l s' -> stamped_inv s'.
Proof.
  intros [_ _ _ Hin _ _ _] [_ _ _ Hpc _ _ _] [Hst Hem] H. unfold step in H.
  exec1_cases H; unfold wg_done; split; st_simpl;
    repeat match goal with |- context [if ?b then _ else _] => destruct b eqn:? end;
    st_simpl; step_facts; try done.
  - by rewrite Hin.
  - destruct Hpc as (_ & Hb & _). destruct (max_cases next now) as [[? ->]|[? ->]]; lia.
  - apply Forall_app. split; [done | by repeat constructor].
  - apply Forall_app. split; [done | by repeat constructor].
Qed.

(** X11: a tick is never stamped before the instant the scheduler started
    nor after the instant it is handed off: every timestamp handed off lies
    between [began] and the clock. *)
Theorem ticks_between_start_and_now other b rate du t0 ls s (k : nat) t :
  0 <= Workers b ->
  steps (Burn other b rate du t0) ls s ->
  emitted s !! k = Some t ->
  t0 <= began s /\ began s <= t /\ t <= clock s.
Proof.
  intros Hw H Hk.
  assert (Hinv : run_inv s /\ stamped_inv s /\ t0 <= clock s
                 /\ (sched s <> PInit -> exit_of (sched s) <> Some ByPanic ->
                     t0 <= began s)).
  { apply (steps_invariant
             (fun x => run_inv x /\ stamped_inv x /\ t0 <= clock x
                       /\ (sched x <> PInit -> exit_of (sched x) <> Some ByPanic ->
                           t0 <= began x)))
      with (ls := ls) (s := Burn other b rate du t0); [| |done].
    - intros x l x' (Hr & Hs & Hc & Hb) Hstep.
      split; [by eapply run_inv_step|].
      split; [destruct Hr; by eapply stamped_inv_step|].
      clear Hs Hr. unfold step in Hstep.
      exec1_cases Hstep; unfold wg_done; st_simpl;
        repeat match goal with |- context [if ?b then _ else _] => destruct b eqn:? end;
        st_simpl; step_facts;
        (split; [try lia | try (intros; apply Hb; done); try done]).
      all: try (apply Z.leb_le in Heqb0; lia).
      all: try (intros; apply Hb; [congruence | by rewrite ?Heqp]).
    - split; [by apply run_inv_init|]. split; [by split|]. simpl. split; [lia | done]. }
  destruct Hinv as ([_ [_ Hem _ _ _ _ _] Hci _ _] & [_ Hst] & _ & Hb).
  rewrite Forall_lookup in Hem, Hst.
  split; [|split; [by apply (Hst k) | by apply (Hem k)]].
  destruct Hci as [_ _ _ Hin _ _ Hpa]. apply Hb.
  - intros Hp. by rewrite Hin in Hk.
  - intros Hp. destruct (Hpa Hp) as [_ He]. by rewrite He in Hk.
Qed.

Lemma ticks_between_start_and_now_witness :
  exists s,
    0 <= Workers {| Workers := 1; stopch := ChNil |}
    /\ steps (Burn 0 {| Workers := 1; stopch := ChNil |} 10 1000000000 5)
         (full_run None 10 (Burn 0 {| Workers := 1; stopch := ChNil |} 10 1000000000 5)) s
    /\ emitted s !! 3%nat = Some 300000005
    /\ (5 <= began s /\ began s <= 300000005 /\ 300000005 <= clock s).
Proof.
  eexists.
  assert (H1 : 0 <= Workers {| Workers := 1; stopch := ChNil |}) by (simpl; lia).
  split; [exact H1|]. split; [vm_compute; reflexivity|]. split; [reflexivity|].
  apply (ticks_between_start_and_now 0 {| Workers := 1; stopch := ChNil |} 10 1000000000 5
           (full_run None 10 (Burn 0 {| Workers := 1; stopch := ChNil |} 10 1000000000 5))
           _ 3%nat 300000005 H1);
    [vm_compute; reflexivity | reflexivity].
Defined.

(** ** The binary64 computation of [du.Seconds()] *)

Lemma digits2_size p : digits2_pos p = Pos.size p.
Proof. induction p as [p IH|p IH|]; simpl; by rewrite ?IH. Qed.

Lemma Zdigits2_log2 p : Zdigits2 (Z.pos p) = Z.log2 (Z.pos p) + 1.
Proof.
  simpl. rewrite digits2_size. destruct p as [p|p|]; simpl; try done;
    by rewrite Pos2Z.inj_succ.
Qed.

Lemma Zdigits2_bounds m d :
  0 < d -> 2 ^ (d - 1) <= Z.pos m < 2 ^ d -> Zdigits2 (Z.pos m) = d.
Proof.
  intros Hd H. rewrite Zdigits2_log2.
  rewrite (Z.log2_unique (Z.pos m) (d - 1)); [lia | lia |].
  by replace (Z.succ (d - 1)) with d by lia.
Qed.

Lemma Zdigits2_range m :
  2 ^ (Zdigits2 (Z.pos m) - 1) <= Z.pos m < 2 ^ Zdigits2 (Z.pos m)
  /\ 1 <= Zdigits2 (Z.pos m).
Proof.
  rewrite Zdigits2_log2. pose proof (Z.log2_spec (Z.pos m) ltac:(lia)) as H.
  pose proof (Z.log2_nonneg (Z.pos m)).
  replace (Z.log2 (Z.pos m) + 1 - 1) with (Z.log2 (Z.pos m)) by lia.
  replace (Z.log2 (Z.pos m) + 1) with (Z.succ (Z.log2 (Z.pos m))) by lia. lia.
Qed.

Lemma iter_xO_value m d : Z.pos (Pos.iter xO m d) = Z.pos m * 2 ^ Z.pos d.
Proof.
  induction d as [|d IH] using Pos.peano_ind.
  - simpl. lia.
  - rewrite Pos.iter_succ, Pos2Z.inj_xO, IH, Pos2Z.inj_succ, Z.pow_succ_r by lia. lia.
Qed.

Lemma shl_align_value mx ex ex' :
  ex' <= ex ->
  snd (shl_align mx ex ex') = ex'
  /\ Z.pos (fst (shl_align mx ex ex')) = Z.pos mx * 2 ^ (ex - ex').
Proof.
  intros H. unfold shl_align. destruct (ex' - ex) as [|d|d] eqn:E; simpl.
  - assert (ex' = ex) as -> by lia. rewrite Z.sub_diag. simpl. lia.
  - lia.
  - split; [done|]. rewrite iter_xO_value. f_equal. f_equal. lia.
Qed.

Lemma fexp_normal e : -1021 <= e -> fexp F64.prec F64.emax e = e - 53.
Proof. intros H. unfold fexp, emin, F64.prec, F64.emax. lia. Qed.

Lemma loc_of_record m l : loc_of_shr_record (shr_record_of_loc m l) = l.
Proof. by destruct l as [|[]]. Qed.

Lemma shr_m_of_loc m l : shr_m (shr_record_of_loc m l) = m.
Proof. by destruct l as [|[]]. Qed.

(** A mantissa of 53 digits is left as it is. *)
Lemma shr_fexp_53 m e l :
  Zdigits2 m = 53 -> -1074 <= e ->
  shr_fexp F64.prec F64.emax m e l = (shr_record_of_loc m l, e).
Proof.
  intros Hd He. unfold shr_fexp. rewrite Hd, fexp_normal by lia.
  replace (53 + e - 53 - e) with 0 by lia. done.
Qed.

(** A mantissa of 54 digits loses its last bit. *)
Lemma shr_fexp_54 m e l :
  Zdigits2 m = 54 -> -1075 <= e ->
  shr_fexp F64.prec F64.emax m e l = (shr_1 (shr_record_of_loc m l), e + 1).
Proof.
  intros Hd He. unfold shr_fexp. rewrite Hd, fexp_normal by lia.
  replace (54 + e - 53 - e) with 1 by lia. done.
Qed.

Lemma shr_1_m r : 0 <= shr_m r -> shr_m (shr_1 r) = shr_m r / 2.
Proof.
  destruct r as [m x y]. simpl. intros H.
  destruct m as [|[p|p|]|p]; simpl; try done; try lia.
  - rewrite Pos2Z.inj_xI. apply (Z.div_unique _ _ _ 1); lia.
  - rewrite Pos2Z.inj_xO. apply (Z.div_unique _ _ _ 0); lia.
Qed.

Lemma round_nearest_even_range m l :
  m <= round_nearest_even m l <= m + 1.
Proof. destruct l as [|[]]; simpl; try lia. destruct (Z.even m); lia. Qed.

(** The second half of [binary_round_aux], from a mantissa of 53 digits:
    the result is finite, with a mantissa of at most [m + 1] at [e], or the
    mantissa [2^52] at [e + 1] when the rounding carried. *)
Lemma round_tail s m e l :
  2 ^ 52 <= m < 2 ^ 53 -> -1074 <= e <= 970 ->
  exists m' e',
    (let '(mrs, e2) := shr_fexp F64.prec F64.emax (round_nearest_even m l) e loc_Exact in
     match shr_m mrs with
     | Z0 => S754_zero s
     | Zpos m2 => if e2 <=? F64.emax - F64.prec
                  then S754_finite s m2 e2 else S754_infinity s
     | Zneg _ => S754_nan
     end) = S754_finite s m' e'
    /\ ((e' = e /\ m <= Z.pos m' <= m + 1 /\ Z.pos m' < 2 ^ 53)
        \/ (e' = e + 1 /\ Z.pos m' = 2 ^ 52 /\ m + 1 = 2 ^ 53)).
Proof.
  intros Hm He.
  pose proof (round_nearest_even_range m l) as Hr.
  destruct (round_nearest_even m l) as [|q|q] eqn:Eq; try lia.
  destruct (decide (Z.pos q < 2 ^ 53)) as [Hlt|Hge].
  - rewrite shr_fexp_53 by (try apply Zdigits2_bounds; lia).
    cbn [shr_record_of_loc shr_m].
    assert (Hle : (e <=? F64.emax - F64.prec) = true)
      by (apply Z.leb_le; unfold F64.emax, F64.prec; lia).
    rewrite Hle. exists q, e. split; [done|]. left. lia.
  - assert (q = 9007199254740992%positive) as -> by lia.
    rewrite shr_fexp_54 by (done || lia).
    cbn [shr_record_of_loc shr_1 shr_m orb].
    assert (Hle : (e + 1 <=? F64.emax - F64.prec) = true)
      by (apply Z.leb_le; unfold F64.emax, F64.prec; lia).
    rewrite Hle. exists 4503599627370496%positive, (e + 1). split; [done|].
    right. lia.
Qed.

Lemma pow2_exponent_above a n k :
  0 <= n -> 2 ^ k <= a -> a < 2 ^ n -> k < n.
Proof.
  intros Hn Hk Hlt. destruct (Z.lt_ge_cases k n) as [H|H]; [done|].
  assert (2 ^ n <= 2 ^ k) by (apply Z.pow_le_mono_r; lia). lia.
Qed.

(** Rounding a mantissa [q] of 53 or 54 digits: the result is finite and
    normal, and at most two units of [q] above [q]. *)
Lemma round_aux_bound s q e l :
  2 ^ 52 <= q < 2 ^ 54 -> -1074 <= e <= 900 ->
  exists m' e', binary_round_aux F64.prec F64.emax s q e l = S754_finite s m' e'
    /\ 2 ^ 52 <= Z.pos m' < 2 ^ 53 /\ e <= e' <= e + 2
    /\ Z.pos m' * 2 ^ (e' - e) <= q + 2.
Proof.
  intros Hq He. unfold binary_round_aux.
  destruct q as [|p|p]; try lia.
  destruct (decide (Z.pos p < 2 ^ 53)) as [H53|H54].
  - rewrite shr_fexp_53 by (try apply Zdigits2_bounds; lia).
    rewrite shr_m_of_loc, loc_of_record.
    destruct (round_tail s (Z.pos p) e l) as (m' & e' & -> & Hc); [lia | lia |].
    exists m', e'. split; [done|].
    destruct Hc as [(-> & H1 & H2)|(-> & H1 & H2)].
    + rewrite Z.sub_diag. change (2 ^ 0) with 1. lia.
    + replace (e + 1 - e) with 1 by lia. change (2 ^ 1) with 2. lia.
  - rewrite shr_fexp_54 by (try apply Zdigits2_bounds; lia).
    pose proof (shr_1_m (shr_record_of_loc (Z.pos p) l)) as Hs.
    rewrite shr_m_of_loc in Hs. specialize (Hs ltac:(lia)).
    rewrite Hs.
    assert (Hh : 2 ^ 52 <= Z.pos p / 2 < 2 ^ 53).
    { split; [apply Z.div_le_lower_bound | apply Z.div_lt_upper_bound]; lia. }
    destruct (round_tail s (Z.pos p / 2) (e + 1)
                (loc_of_shr_record (shr_1 (shr_record_of_loc (Z.pos p) l))))
      as (m' & e' & -> & Hc); [lia | lia |].
    exists m', e'. split; [done|].
    assert (Hd : 2 * (Z.pos p / 2) <= Z.pos p) by (apply Z.mul_div_le; lia).
    destruct Hc as [(-> & H1 & H2)|(-> & H1 & H2)].
    + replace (e + 1 - e) with 1 by lia. change (2 ^ 1) with 2. lia.
    + replace (e + 1 + 1 - e) with 2 by lia. change (2 ^ 2) with 4. lia.
Qed.

(** A mantissa of 53 digits at an exponent in range is a float as it is. *)
Lemma round_aux_exact s m e :
  2 ^ 52 <= Z.pos m < 2 ^ 53 -> -1074 <= e <= 971 ->
  binary_round_aux F64.prec F64.emax s (Z.pos m) e loc_Exact = S754_finite s m e.
Proof.
  intros Hm He. unfold binary_round_aux.
  rewrite shr_fexp_53 by (try apply Zdigits2_bounds; lia).
  cbn [shr_record_of_loc shr_m loc_of_shr_record round_nearest_even].
  rewrite shr_fexp_53 by (try apply Zdigits2_bounds; lia).
  cbn [shr_record_of_loc shr_m].
  assert (Hle : (e <=? F64.emax - F64.prec) = true)
    by (apply Z.leb_le; unfold F64.emax, F64.prec; lia).
  by rewrite Hle.
Qed.

Lemma pow2_split a b c : 0 <= b -> 0 <= c -> a = b + c -> 2 ^ a = 2 ^ b * 2 ^ c.
Proof. intros Hb Hc ->. by rewrite Z.pow_add_r. Qed.

(** [float64(n)] is exact for an integer below [2^53]: the mantissa is [n]
    shifted to 53 digits. *)
Lemma binary_round_int s p :
  Z.pos p < 2 ^ 53 ->
  exists m, binary_round F64.prec F64.emax s p 0
            = S754_finite s m (Zdigits2 (Z.pos p) - 53)
    /\ Z.pos m = Z.pos p * 2 ^ (53 - Zdigits2 (Z.pos p))
    /\ 2 ^ 52 <= Z.pos m < 2 ^ 53.
Proof.
  intros Hp. unfold binary_round.
  destruct (Zdigits2_range p) as [Hr Hd1].
  change (Z.pos (digits2_pos p)) with (Zdigits2 (Z.pos p)).
  set (d := Zdigits2 (Z.pos p)) in *.
  assert (Hd : d - 1 < 53) by (apply (pow2_exponent_above (Z.pos p)); lia).
  rewrite Z.add_0_r, fexp_normal by lia.
  destruct (shl_align_value p 0 (d - 53) ltac:(lia)) as [He Hm].
  destruct (shl_align p 0 (d - 53)) as [mz ez]. simpl in He, Hm. subst ez.
  replace (0 - (d - 53)) with (53 - d) in Hm by lia.
  assert (Hmz : 2 ^ 52 <= Z.pos mz < 2 ^ 53).
  { rewrite Hm, (pow2_split 52 (d - 1) (53 - d)), (pow2_split 53 d (53 - d)) by lia.
    assert (0 < 2 ^ (53 - d)) by (apply Z.pow_pos_nonneg; lia). nia. }
  exists mz. split; [apply round_aux_exact; lia|]. done.
Qed.

Lemma of_int_1e9 : F64.of_int 1000000000 = S754_finite false 8388608000000000 (-23).
Proof. reflexivity. Qed.

(** The quotient of two mantissas of 53 digits is computed with 53 more
    bits. *)
Lemma div_core_53 m1 e1 m2 e2 :
  2 ^ 52 <= Z.pos m1 < 2 ^ 53 -> 2 ^ 52 <= Z.pos m2 < 2 ^ 53 -> -1021 <= e1 - e2 ->
  SFdiv_core_binary F64.prec F64.emax (Z.pos m1) e1 (Z.pos m2) e2
  = (Z.pos m1 * 2 ^ 53 / Z.pos m2, e1 - e2 - 53,
     new_location (Z.pos m2) (Z.pos m1 * 2 ^ 53 mod Z.pos m2)).
Proof.
  intros H1 H2 He. unfold SFdiv_core_binary. cbv zeta.
  rewrite !(Zdigits2_bounds _ 53) by lia.
  replace (53 + e1 - (53 + e2)) with (e1 - e2) by lia.
  rewrite fexp_normal by lia. rewrite Z.min_l by lia.
  replace (e1 - e2 - (e1 - e2 - 53)) with 53 by lia.
  cbv beta iota. rewrite Z.shiftl_mul_pow2 by lia.
  unfold Z.div, Z.modulo. by destruct (Z.div_eucl _ _).
Qed.

(** [float64(n)/1e9] for [0 < n < 1e9], with either sign: a normal float
    below 1, at most two units in the last place above [n/1e9]. *)
Lemma frac_float s p :
  Z.pos p < Second ->
  exists m e,
    F64.div (binary_round F64.prec F64.emax s p 0) (F64.of_int 1000000000)
    = S754_finite s m e
    /\ 2 ^ 52 <= Z.pos m < 2 ^ 53 /\ -82 <= e <= -53
    /\ Z.pos m * Second <= Z.pos p * 2 ^ (- e) + 2 * Second.
Proof.
  intros Hp. unfold Second in *.
  destruct (binary_round_int s p) as (m1 & -> & Hm1 & Hr1); [lia|].
  destruct (Zdigits2_range p) as [Hr Hd1].
  set (d := Zdigits2 (Z.pos p)) in *.
  assert (Hd : d - 1 < 30) by (apply (pow2_exponent_above (Z.pos p)); lia).
  rewrite of_int_1e9. unfold F64.div, SFdiv.
  rewrite div_core_53 by lia. cbv beta iota.
  replace (xorb s false) with s by (by destruct s).
  set (q := Z.pos m1 * 2 ^ 53 / 8388608000000000).
  assert (Hq : 2 ^ 52 <= q < 2 ^ 54).
  { split; [apply Z.div_le_lower_bound | apply Z.div_lt_upper_bound]; lia. }
  assert (Hqm : q * 8388608000000000 <= Z.pos m1 * 2 ^ 53).
  { unfold q. rewrite Z.mul_comm. apply Z.mul_div_le. lia. }
  destruct (round_aux_bound s q (d - 53 - -23 - 53)
              (new_location 8388608000000000 (Z.pos m1 * 2 ^ 53 mod 8388608000000000)))
    as (m & e & -> & Hm & He & Hb); [lia | lia |].
  exists m, e. split; [done|]. split; [done|].
  (* in units of [2^(d - 83)] *)
  set (ez := d - 53 - -23 - 53) in *.
  assert (HK : 2 ^ (- ez) = 2 ^ (- e) * 2 ^ (e - ez)) by (apply pow2_split; lia).
  assert (HK2 : 2 ^ (- ez) * 8388608 = 2 ^ (53 - d) * 2 ^ 53).
  { change 8388608 with (2 ^ 23). rewrite <- !Z.pow_add_r by lia. f_equal. lia. }
  assert (HT : 0 < 2 ^ (e - ez)) by (apply Z.pow_pos_nonneg; lia).
  assert (HE : 0 < 2 ^ (- e)) by (apply Z.pow_pos_nonneg; lia).
  assert (HL : 0 < 2 ^ (53 - d)) by (apply Z.pow_pos_nonneg; lia).
  assert (Hq9 : q * 1000000000 <= Z.pos p * 2 ^ (- ez)).
  { rewrite Hm1 in Hqm. nia. }
  assert (Hbound : Z.pos m * 1000000000 <= Z.pos p * 2 ^ (- e) + 2 * 1000000000).
  { rewrite HK in Hq9.
    assert (Z.pos m * 1000000000 * 2 ^ (e - ez)
            <= (Z.pos p * 2 ^ (- e) + 2 * 1000000000) * 2 ^ (e - ez)) by nia.
    apply (Z.mul_le_mono_pos_r _ _ (2 ^ (e - ez))); done. }
  split; [|done].
  split; [lia|].
  destruct (Z.le_gt_cases e (-53)) as [H|H]; [done|]. exfalso.
  assert (2 ^ (- e) <= 2 ^ 52) by (apply Z.pow_le_mono_r; lia).
  nia.
Qed.

Lemma iter_shr_m n : forall r,
  0 <= shr_m r -> shr_m (SpecFloat.iter_pos shr_1 n r) = shr_m r / 2 ^ Z.pos n.
Proof.
  induction n as [n IH|n IH|]; intros r Hr; cbn [SpecFloat.iter_pos].
  - assert (H1 : 0 <= shr_m (shr_1 r)) by (rewrite shr_1_m by done; apply Z.div_pos; lia).
    assert (H2 : 0 <= shr_m (SpecFloat.iter_pos shr_1 n (shr_1 r)))
      by (rewrite IH by done; apply Z.div_pos; [done | by apply Z.pow_pos_nonneg]).
    rewrite (IH _ H2), (IH _ H1), shr_1_m by done.
    assert (0 < 2 ^ Z.pos n) by (by apply Z.pow_pos_nonneg).
    rewrite !Z.div_div by lia. f_equal.
    rewrite (pow2_split (Z.pos n~1) (Z.pos n + Z.pos n) 1),
      (pow2_split (Z.pos n + Z.pos n) (Z.pos n) (Z.pos n)) by lia.
    change (2 ^ 1) with 2. lia.
  - assert (H2 : 0 <= shr_m (SpecFloat.iter_pos shr_1 n r))
      by (rewrite IH by done; apply Z.div_pos; [done | by apply Z.pow_pos_nonneg]).
    rewrite (IH _ H2), (IH _ Hr).
    assert (0 < 2 ^ Z.pos n) by (by apply Z.pow_pos_nonneg).
    rewrite !Z.div_div by lia. f_equal.
    by rewrite (pow2_split (Z.pos n~0) (Z.pos n) (Z.pos n)) by lia.
  - rewrite shr_1_m by done. done.
Qed.

(** A mantissa with [n] digits too many loses its last [n] bits. *)
Lemma shr_fexp_long m e l n :
  0 < n -> Zdigits2 (Z.pos m) = 53 + n -> -1074 <= e + n ->
  exists r, shr_fexp F64.prec F64.emax (Z.pos m) e l = (r, e + n)
            /\ shr_m r = Z.pos m / 2 ^ n.
Proof.
  intros Hn Hd He. unfold shr_fexp. rewrite Hd, fexp_normal by lia.
  replace (53 + n + e - 53 - e) with n by lia.
  destruct n as [|k|k]; try lia. cbn [shr].
  eexists. split; [done|]. rewrite iter_shr_m, shr_m_of_loc by (by rewrite shr_m_of_loc).
  done.
Qed.

(** The sum of two positive normal floats, the second at a lower exponent
    and too small to carry the sum past 53 digits: the mantissa of the
    first plus the second one's, shifted to the first one's exponent, then
    rounded up by at most one unit. *)
Lemma add_aligned m1 e1 m2 e2 :
  2 ^ 52 <= Z.pos m1 -> 0 < e1 - e2 -> -1074 <= e2 -> e1 <= 900 ->
  Z.pos m1 + Z.pos m2 / 2 ^ (e1 - e2) < 2 ^ 53 ->
  exists m e,
    F64.add (S754_finite false m1 e1) (S754_finite false m2 e2) = S754_finite false m e
    /\ ((e = e1 /\ Z.pos m1 + Z.pos m2 / 2 ^ (e1 - e2) <= Z.pos m
                    <= Z.pos m1 + Z.pos m2 / 2 ^ (e1 - e2) + 1)
        \/ (e = e1 + 1 /\ Z.pos m = 2 ^ 52
            /\ Z.pos m1 + Z.pos m2 / 2 ^ (e1 - e2) + 1 = 2 ^ 53)).
Proof.
  intros H1 Hn He2 He1 Hs. unfold F64.add, SFadd.
  rewrite Z.min_r by lia.
  destruct (shl_align_value m1 e1 e2 ltac:(lia)) as [_ Ha].
  set (a := fst (shl_align m1 e1 e2)) in *.
  assert (fst (shl_align m2 e2 e2) = m2) as ->
    by (unfold shl_align; by rewrite Z.sub_diag).
  cbn [cond_Zopp Z.add binary_normalize].
  set (n := e1 - e2) in *.
  assert (HN : 0 < 2 ^ n) by (apply Z.pow_pos_nonneg; lia).
  assert (HM : Z.pos (a + m2) / 2 ^ n = Z.pos m1 + Z.pos m2 / 2 ^ n).
  { rewrite Pos2Z.inj_add, Ha. apply Z.div_add_l. lia. }
  assert (Hdig : Zdigits2 (Z.pos (a + m2)) = 53 + n).
  { apply Zdigits2_bounds; [lia|].
    rewrite (pow2_split (53 + n - 1) 52 n), (pow2_split (53 + n) 53 n) by lia.
    split.
    - rewrite Pos2Z.inj_add, Ha. nia.
    - destruct (Z.lt_ge_cases (Z.pos (a + m2)) (2 ^ 53 * 2 ^ n)) as [H|H]; [done|].
      assert (2 ^ 53 <= Z.pos (a + m2) / 2 ^ n)
        by (apply Z.div_le_lower_bound; lia).
      lia. }
  change (Z.pos a + Z.pos m2) with (Z.pos (a + m2)).
  unfold binary_normalize, binary_round.
  change (Z.pos (digits2_pos (a + m2))) with (Zdigits2 (Z.pos (a + m2))).
  rewrite Hdig, fexp_normal by lia.
  assert (shl_align (a + m2) e2 (53 + n + e2 - 53) = ((a + m2)%positive, e2)) as ->.
  { unfold shl_align. replace (53 + n + e2 - 53 - e2) with n by lia.
    destruct n; try lia; done. }
  unfold binary_round_aux.
  destruct (shr_fexp_long (a + m2) e2 loc_Exact n) as (r & -> & Hr); [lia | done | lia |].
  rewrite Hr, HM.
  destruct (round_tail false (Z.pos m1 + Z.pos m2 / 2 ^ n) (e2 + n) (loc_of_shr_record r))
    as (m & e & -> & Hc).
  { split; [|done]. assert (0 <= Z.pos m2 / 2 ^ n) by (apply Z.div_pos; lia). lia. }
  { lia. }
  exists m, e. split; [done|].
  replace (e2 + n) with e1 in Hc by lia.
  destruct Hc as [(-> & Hc1 & Hc2)|(-> & Hc1 & Hc2)]; [left | right]; lia.
Qed.

Lemma shiftl_neg a e : e <= 0 -> Z.shiftl a e = a / 2 ^ (- e).
Proof.
  intros He. replace e with (- - e) at 1 by lia.
  by rewrite Z.shiftl_opp_r, Z.shiftr_div_pow2 by lia.
Qed.

Lemma to_uint64_trunc other f t :
  F64.trunc f = Some t -> 0 <= t < 2 ^ 64 -> F64.to_uint64 other f = t.
Proof.
  intros Ht Hr. unfold F64.to_uint64. rewrite Ht.
  destruct (Z.leb_spec 0 t), (Z.ltb_spec t (2 ^ 64)); simpl; lia.
Qed.

(** The fraction of a second alone truncates to 0. *)
Lemma trunc_frac s p :
  Z.pos p < Second ->
  F64.trunc (F64.add (S754_zero false)
               (F64.div (binary_round F64.prec F64.emax s p 0) (F64.of_int 1000000000)))
  = Some 0.
Proof.
  intros Hp. destruct (frac_float s p Hp) as (m & e & -> & Hm & He & _).
  cbn [F64.add SFadd F64.trunc]. rewrite shiftl_neg by lia.
  assert (2 ^ 53 <= 2 ^ (- e)) by (apply Z.pow_le_mono_r; lia).
  rewrite Z.div_small by lia. by destruct s.
Qed.

(** [du.Seconds()] truncated, for a [du] that is not negative: the whole
    seconds of [du] or one more, and the whole seconds when [du] is below
    [2^23] seconds. *)
Lemma trunc_Seconds du :
  0 <= du <= maxDuration ->
  exists t, F64.trunc (Seconds du) = Some t
            /\ du / Second <= t <= du / Second + 1
            /\ (du < 2 ^ 23 * Second -> t = du / Second).
Proof.
  intros Hdu. unfold Seconds. cbv zeta.
  rewrite Z.quot_div_nonneg, Z.rem_mod_nonneg by (unfold Second; lia).
  pose proof (Z.mod_pos_bound du Second ltac:(unfold Second; lia)) as Hn.
  assert (Hsec : 0 <= du / Second < 2 ^ 34).
  { split; [apply Z.div_pos | apply Z.div_lt_upper_bound];
      unfold Second, maxDuration in *; lia. }
  assert (Hexact : du < 2 ^ 23 * Second -> du / Second < 2 ^ 23).
  { intros H. apply Z.div_lt_upper_bound; unfold Second in *; lia. }
  set (sec := du / Second) in *. set (nsec := du mod Second) in *.
  clearbody sec nsec. clear Hdu.
  destruct sec as [|ps|ps]; [| |lia].
  - (* no whole second *)
    exists 0. split; [|lia].
    destruct nsec as [|pn|pn]; [done | | lia].
    apply (trunc_frac false pn). lia.
  - destruct (binary_round_int false ps) as (m1 & Hx & Hm1 & Hr1); [lia|].
    unfold F64.of_int at 1. cbn [binary_normalize]. rewrite Hx. clear Hx.
    destruct (Zdigits2_range ps) as [Hr Hd1].
    set (d := Zdigits2 (Z.pos ps)) in *.
    assert (Hd : d - 1 < 34) by (apply (pow2_exponent_above (Z.pos ps)); lia).
    assert (HL : 0 < 2 ^ (53 - d)) by (apply Z.pow_pos_nonneg; lia).
    assert (H53 : 2 ^ 53 = 2 ^ d * 2 ^ (53 - d)) by (apply pow2_split; lia).
    destruct nsec as [|pn|pn]; [| |lia].
    + (* a whole number of seconds *)
      exists (Z.pos ps). split; [|lia].
      unfold F64.of_int at 1. cbn [binary_normalize]. rewrite of_int_1e9.
      cbn [F64.div SFdiv F64.add SFadd F64.trunc cond_Zopp xorb].
      rewrite shiftl_neg by lia. replace (- (d - 53)) with (53 - d) by lia.
      rewrite Hm1, Z.div_mul by lia. done.
    + destruct (frac_float false pn) as (m2 & e2 & Hy & Hm2 & He2 & Hb); [lia|].
      unfold F64.of_int at 1. cbn [binary_normalize]. rewrite Hy. clear Hy.
      set (n := d - 53 - e2).
      assert (HN : 0 < 2 ^ n) by (apply Z.pow_pos_nonneg; lia).
      assert (HW : 2 ^ (- e2) = 2 ^ (53 - d) * 2 ^ n) by (apply pow2_split; lia).
      assert (H53W : 2 ^ 53 <= 2 ^ (- e2)) by (apply Z.pow_le_mono_r; lia).
      assert (Hfr : 0 <= Z.pos m2 / 2 ^ n < 2 ^ (53 - d)).
      { split; [apply Z.div_pos; lia|]. apply Z.div_lt_upper_bound; [done|]. lia. }
      assert (Hfx : Z.pos ps < 2 ^ 23 -> Z.pos m2 / 2 ^ n < 2 ^ (53 - d) - 1).
      { intros Hs. apply Z.div_lt_upper_bound; [done|].
        assert (d - 1 < 23) by (apply (pow2_exponent_above (Z.pos ps)); lia).
        assert (H30 : 2 ^ 30 <= 2 ^ (53 - d)) by (apply Z.pow_le_mono_r; lia).
        destruct (Z.lt_ge_cases (Z.pos m2) (2 ^ n * (2 ^ (53 - d) - 1))) as [H'|H']; [done|].
        exfalso. unfold Second in *.
        set (W := 2 ^ (- e2)) in *. set (L := 2 ^ (53 - d)) in *. set (N := 2 ^ n) in *.
        assert (Z.pos pn * W <= 999999999 * W) by nia.
        assert (W <= 1000000000 * N + 2000000000) by lia.
        assert (2 ^ 30 * N <= L * N) by nia.
        lia. }
      destruct (add_aligned m1 (d - 53) m2 e2) as (m & e & -> & Hc);
        [lia | lia | lia | lia | fold n; nia |].
      fold n in Hc. cbn [F64.trunc cond_Zopp].
      eexists. split; [done|].
      destruct Hc as [(-> & Hc1)|(-> & Hc1 & Hc2)].
      * rewrite shiftl_neg by lia. replace (- (d - 53)) with (53 - d) by lia.
        split; [split|].
        -- apply Z.div_le_lower_bound; lia.
        -- assert (Z.pos m / 2 ^ (53 - d) < Z.pos ps + 2); [|lia].
           apply Z.div_lt_upper_bound; [done|]. nia.
        -- intros Hs. specialize (Hfx (Hexact Hs)).
           symmetry. apply Z.div_unique with (Z.pos m - Z.pos ps * 2 ^ (53 - d)); [left|]; lia.
      * rewrite shiftl_neg by lia. replace (- (d - 53 + 1)) with (52 - d) by lia.
        assert (H52 : 2 ^ 52 = 2 ^ d * 2 ^ (52 - d)) by (apply pow2_split; lia).
        assert (0 < 2 ^ (52 - d)) by (apply Z.pow_pos_nonneg; lia).
        rewrite Hc1, H52, Z.div_mul by lia.
        assert (Z.pos ps + 1 = 2 ^ d) by nia.
        split; [lia|]. intros Hs. specialize (Hfx (Hexact Hs)). nia.
Qed.

(** For a [du] of less than a second before zero, [uint64(du.Seconds())]
    is 0. *)
Lemma trunc_Seconds_neg du :
  - Second < du < 0 -> F64.trunc (Seconds du) = Some 0.
Proof.
  intros Hdu. unfold Seconds. cbv zeta.
  destruct du as [|p|p]; try lia.
  change (Z.neg p) with (- Z.pos p).
  rewrite Z.quot_opp_l, Z.rem_opp_l, Z.quot_small, Z.rem_small by (unfold Second in *; lia).
  apply (trunc_frac true p). lia.
Qed.

(** X12: for a duration [du] of more than minus one second and less than
    [2^23] seconds, [uint64(du.Seconds())] is the number of whole seconds
    of [du], the fraction dropped: the binary64 sum and quotient of
    [Seconds] lose nothing that matters. *)
Theorem whole_seconds_exact other du :
  - Second < du < 2 ^ 23 * Second -> uint64_Seconds other du = Z.quot du Second.
Proof.
  intros Hdu. unfold uint64_Seconds.
  destruct (Z.lt_ge_cases du 0) as [Hneg|Hpos].
  - rewrite (to_uint64_trunc other _ 0); [| apply trunc_Seconds_neg; lia | lia].
    destruct du as [|p|p]; try lia. change (Z.neg p) with (- Z.pos p).
    rewrite Z.quot_opp_l, Z.quot_small by (unfold Second in *; lia). done.
  - destruct (trunc_Seconds du) as (t & Ht & Hb & Hx).
    { unfold maxDuration, Second in *. lia. }
    rewrite Z.quot_div_nonneg by (unfold Second; lia).
    rewrite <- (Hx ltac:(lia)). apply to_uint64_trunc; [done|].
    rewrite (Hx ltac:(lia)).
    split; [apply Z.div_pos | apply Z.div_lt_upper_bound]; unfold Second in *; lia.
Qed.

Lemma whole_seconds_exact_witness :
  - Second < 2500000000 < 2 ^ 23 * Second /\ uint64_Seconds 7 2500000000 = 2.
Proof.
  assert (H : - Second < 2500000000 < 2 ^ 23 * Second) by (unfold Second; lia).
  split; [exact H|]. exact (whole_seconds_exact 7 2500000000 H).
Defined.

(** X13: for every duration [du] from 0 to the largest one,
    [uint64(du.Seconds())] is the number of whole seconds of [du] or one
    more. *)
Theorem whole_seconds_bounds other du :
  0 <= du <= maxDuration ->
  du / Second <= uint64_Seconds other du <= du / Second + 1.
Proof.
  intros Hdu. unfold uint64_Seconds.
  destruct (trunc_Seconds du Hdu) as (t & Ht & Hb & _).
  rewrite (to_uint64_trunc other _ t); [done | done |].
  assert (du / Second < 2 ^ 34)
    by (apply Z.div_lt_upper_bound; unfold Second, maxDuration in *; lia).
  assert (0 <= du / Second) by (apply Z.div_pos; unfold Second; lia).
  lia.
Qed.

Lemma whole_seconds_bounds_witness :
  0 <= 16777216999999999 <= maxDuration
  /\ 16777216999999999 / Second <= uint64_Seconds 7 16777216999999999
     <= 16777216999999999 / Second + 1.
Proof.
  assert (H : 0 <= 16777216999999999 <= maxDuration) by (unfold maxDuration; lia).
  split; [exact H|]. exact (whole_seconds_bounds 7 16777216999999999 H).
Defined.

(** X14: with a rate of at least 1, a duration from one second to less
    than [2^23] seconds and [rate] times its whole seconds below [2^64],
    a run without cancellation whose result stream is closed has delivered
    exactly [rate] times the whole seconds of [du] Results. *)
Theorem short_run_delivers other b rate du t0 ls s :
  0 <= Workers b -> stopch b <> ChClosed -> 0 < rate ->
  Second <= du < 2 ^ 23 * Second -> rate * (du / Second) < 2 ^ 64 ->
  steps (Burn other b rate du t0) ls s -> no_stop ls -> results s = ChClosed ->
  Z.of_nat (length (received s)) = rate * (du / Second).
Proof.
  intros Hw Hs Hr Hdu Hlt H Hns Hc.
  assert (Hq : 1 <= du / Second)
    by (apply Z.div_le_lower_bound; unfold Second in *; lia).
  assert (He : uint64_Seconds other du = du / Second).
  { destruct (trunc_Seconds du) as (t & Ht & _ & Hx).
    { unfold maxDuration, Second in *. lia. }
    rewrite <- (Hx ltac:(lia)). apply to_uint64_trunc; [done|].
    rewrite (Hx ltac:(lia)). lia. }
  assert (Hh : wrap64 (rate * uint64_Seconds other du) = rate * (du / Second)).
  { rewrite He. apply wrap64_small. nia. }
  rewrite <- Hh.
  apply (closed_means_hits other b rate du t0 ls s); try done; lia.
Qed.

Lemma short_run_delivers_witness :
  exists s,
    (0 <= Workers {| Workers := 1; stopch := ChNil |}
     /\ stopch {| Workers := 1; stopch := ChNil |} <> ChClosed
     /\ 0 < 2
     /\ Second <= 1500000000 < 2 ^ 23 * Second
     /\ 2 * (1500000000 / Second) < 2 ^ 64)
    /\ steps (Burn 0 {| Workers := 1; stopch := ChNil |} 2 1500000000 0)
         (full_run None 2 (Burn 0 {| Workers := 1; stopch := ChNil |} 2 1500000000 0)) s
    /\ no_stop (full_run None 2 (Burn 0 {| Workers := 1; stopch := ChNil |} 2 1500000000 0))
    /\ results s = ChClosed
    /\ Z.of_nat (length (received s)) = 2 * (1500000000 / Second).
Proof.
  eexists.
  assert (H1 : 0 <= Workers {| Workers := 1; stopch := ChNil |}) by (simpl; lia).
  assert (H2 : stopch {| Workers := 1; stopch := ChNil |} <> ChClosed) by (simpl; discriminate).
  assert (H3 : 0 < 2) by lia.
  assert (H4 : Second <= 1500000000 < 2 ^ 23 * Second) by (unfold Second; lia).
  assert (H5 : 2 * (1500000000 / Second) < 2 ^ 64) by (vm_compute; reflexivity).
  split; [by repeat split|].
  assert (H6 : steps (Burn 0 {| Workers := 1; stopch := ChNil |} 2 1500000000 0)
                 (full_run None 2 (Burn 0 {| Workers := 1; stopch := ChNil |} 2 1500000000 0))
                 ltac:(let x := eval vm_compute in
                         (default (Burn 0 {| Workers := 1; stopch := ChNil |} 2 1500000000 0)
                            (exec (Burn 0 {| Workers := 1; stopch := ChNil |} 2 1500000000 0)
                               (full_run None 2
                                  (Burn 0 {| Workers := 1; stopch := ChNil |} 2 1500000000 0))))
                       in exact x))
    by (vm_compute; reflexivity).
  split; [exact H6|].
  assert (H7 : no_stop (full_run None 2
                          (Burn 0 {| Workers := 1; stopch := ChNil |} 2 1500000000 0)))
    by (apply no_stop_decide; vm_compute; reflexivity).
  split; [exact H7|].
  assert (H8 : results ltac:(let x := eval vm_compute in
                         (default (Burn 0 {| Workers := 1; stopch := ChNil |} 2 1500000000 0)
                            (exec (Burn 0 {| Workers := 1; stopch := ChNil |} 2 1500000000 0)
                               (full_run None 2
                                  (Burn 0 {| Workers := 1; stopch := ChNil |} 2 1500000000 0))))
                       in exact x) = ChClosed) by reflexivity.
  split; [exact H8|].
  exact (short_run_delivers 0 {| Workers := 1; stopch := ChNil |} 2 1500000000 0 _ _
           H1 H2 H3 H4 H5 H6 H7 H8).
Defined.
